(** * base62: a shallow embedding of [base62.go] and its properties

    The Go package converts byte sequences and unsigned 64-bit integers
    to and from strings over a 62-symbol alphabet.  Go values are
    modelled as follows:

    - [byte] is [Byte.byte]; [b2z] widens it to an integer and [z2b] is
      the truncating conversion [byte(i)];
    - a Go [string] and a [[]byte] are both [list byte]: a Go string is
      an immutable byte sequence, not a sequence of characters;
    - [uint64] is [Z] with the wrap-around [wrap64] written out where
      the code does arithmetic; [int64] likewise through [to_int64];
    - [*big.Int] is [Z];
    - the fixed arrays [[62]byte] and [[256]byte] are lists read and
      written by index; an index outside the array is a run-time panic,
      the [Panic] result. *)

From Stdlib Require Import ZArith Lia Strings.Byte.
From Equations Require Import Equations.
From stdpp Require Import base list strings.

Open Scope Z_scope.

(** ** Bytes and machine integers *)

Definition b2n (b : byte) : nat := Byte.to_nat b.
Definition b2z (b : byte) : Z := Z.of_N (Byte.to_N b).
Definition z2b (z : Z) : byte :=
  default x00 (Byte.of_N (Z.to_N (z mod 256))).

Definition wrap64 (z : Z) : Z := z mod 2 ^ 64.
Definition to_int64 (z : Z) : Z := (z + 2 ^ 63) mod 2 ^ 64 - 2 ^ 63.

(** Bit length of a non-negative integer: the measure under which the
    division loops of the package terminate. *)
Definition bitlen (x : Z) : nat :=
  match x with
  | Zpos p => Pos.size_nat p
  | _ => O
  end.

(** ** Results of Go calls *)

Inductive result (A : Type) : Type :=
| Ok (a : A)
| Panic.
Arguments Ok {A} a.
Arguments Panic {A}.

#[global] Instance result_ret : MRet result := fun A a => Ok a.
#[global] Instance result_bind : MBind result := fun A B k r =>
  match r with
  | Ok a => k a
  | Panic => Panic
  end.

(** [a[i]] for an integer index: out of range panics. *)
Definition index {A} (l : list A) (i : Z) : result A :=
  if (0 <=? i) && (i <? Z.of_nat (length l))
  then match l !! Z.to_nat i with Some a => Ok a | None => Panic end
  else Panic.

(** [a[i] = x] for an integer index. *)
Definition store {A} (l : list A) (i : Z) (x : A) : result (list A) :=
  if (0 <=? i) && (i <? Z.of_nat (length l))
  then Ok (<[Z.to_nat i := x]> l)
  else Panic.

(** [copy(dst[off:], src)]: overwrites as many elements as fit. *)
Definition copy_at {A} (dst : list A) (off : nat) (src : list A) : list A :=
  take off dst ++ take (length dst - off) src ++ drop (off + length src) dst.

(** ** The encoding table *)

Definition radix : Z := 62.

Record Encoding : Type := {
  alphabet : list byte;      (* [62]byte *)
  decodeMap : list byte;     (* [256]byte *)
  alphabetIdx0 : byte
}.

(** [copy(enc.alphabet[:], alphabet)] into a zeroed [[62]byte]. *)
Definition copy62 (src : list byte) : list byte :=
  copy_at (replicate 62 x00) 0 src.

(** [for i, b := range enc.alphabet { enc.decodeMap[b] = byte(i) }],
    from index [i] on.  The index [b] is a byte and [decodeMap] has 256
    entries, so the write is always in range. *)
Fixpoint fill_decodeMap (i : Z) (alpha : list byte) (dm : list byte) : list byte :=
  match alpha with
  | [] => dm
  | b :: rest => fill_decodeMap (i + 1) rest (<[b2n b := z2b i]> dm)
  end.

Definition New (alphabet : list byte) : result Encoding :=
  let alpha := copy62 alphabet in
  let dm := fill_decodeMap 0 alpha (replicate 256 xff) in
  idx0 ← index alphabet 0;
  Ok {| alphabet := alpha; decodeMap := dm; alphabetIdx0 := idx0 |}.

Definition std_alphabet : list byte :=
  String.list_byte_of_string
    "0123456789abcdefghijklmnopqrstuvwxyzABCDEFGHIJKLMNOPQRSTUVWXYZ".

Definition zero_Encoding : Encoding :=
  {| alphabet := replicate 62 x00; decodeMap := replicate 256 x00;
     alphabetIdx0 := x00 |}.

Definition StdEncoding : Encoding :=
  match New std_alphabet with
  | Ok e => e
  | Panic => zero_Encoding
  end.

Definition bigRadix10 : Z := 62 * 62 * 62 * 62 * 62 * 62 * 62 * 62 * 62 * 62.

Definition bigRadix : list Z :=
  [ 0;
    62;
    62 * 62;
    62 * 62 * 62;
    62 * 62 * 62 * 62;
    62 * 62 * 62 * 62 * 62;
    62 * 62 * 62 * 62 * 62 * 62;
    62 * 62 * 62 * 62 * 62 * 62 * 62;
    62 * 62 * 62 * 62 * 62 * 62 * 62 * 62;
    62 * 62 * 62 * 62 * 62 * 62 * 62 * 62 * 62;
    bigRadix10 ].

(** ** math/big: [SetBytes] and [Bytes] *)

(** [x.SetBytes(b)]: [b] read as a big-endian unsigned integer. *)
Definition SetBytes (b : list byte) : Z :=
  fold_left (fun acc c => acc * 256 + b2z c) b 0.

Lemma bitlen_div (x d : Z) : 0 < x -> 2 <= d -> (bitlen (x / d) < bitlen x)%nat.
Proof.
  intros Hx Hd.
  assert (Hq : 0 <= x / d) by (apply Z.div_pos; lia).
  assert (Hlt : x / d < x) by (apply Z.div_lt; lia).
  assert (Hhalf : x / d <= x / 2).
  { apply Z.div_le_compat_l; lia. }
  destruct x as [|p|p]; try lia.
  destruct (Z.pos p / d) as [|q|q] eqn:E; try lia.
  - simpl. destruct p; simpl; lia.
  - simpl.
    assert (Hpq : (Z.pos q <= Z.pos p / 2)) by lia.
    assert (Hsz : forall a b : positive, (Pos.size_nat a < Pos.size_nat b)%nat \/ (Pos.size_nat b <= Pos.size_nat a)%nat) by (intros; lia).
    destruct (Hsz q p) as [?|Hge]; [assumption|exfalso].
    assert (H1 : Z.pos p < 2 ^ Z.of_nat (Pos.size_nat p)).
    { clear. induction p; simpl Pos.size_nat; rewrite ?Nat2Z.inj_succ, ?Z.pow_succ_r by lia; lia. }
    assert (H2 : 2 ^ Z.of_nat (Pos.size_nat q) <= 2 * Z.pos q).
    { clear. induction q; simpl Pos.size_nat; rewrite ?Nat2Z.inj_succ, ?Z.pow_succ_r by lia; try lia. }
    assert (H3 : 2 ^ Z.of_nat (Pos.size_nat p) <= 2 ^ Z.of_nat (Pos.size_nat q)).
    { apply Z.pow_le_mono_r; lia. }
    assert (H4 : 2 * (Z.pos p / 2) <= Z.pos p).
    { apply Z.mul_div_le; lia. }
    lia.
Qed.

(** [x.Bytes()]: the minimal big-endian byte string of [x], least
    significant byte produced first and pushed in front. *)
Equations? Bytes_aux (x : Z) (acc : list byte) : list byte by wf (bitlen x) lt :=
  Bytes_aux x acc with Z_gt_dec x 0 => {
    | left _ := Bytes_aux (x / 256) (z2b (x mod 256) :: acc);
    | right _ := acc }.
Proof. apply bitlen_div; lia. Qed.

Definition Bytes (x : Z) : list byte := Bytes_aux x [].

(** [s[i:]] for an integer index. *)
Definition slice_from {A} (l : list A) (i : Z) : result (list A) :=
  if (0 <=? i) && (i <=? Z.of_nat (length l))
  then Ok (drop (Z.to_nat i) l)
  else Panic.

(** ** EncodeToString *)

(** [for m > 0 { answer = append(answer, e.alphabet[m%62]); m /= 62 }]
    on an [int64]: [%] and [/] truncate towards zero. *)
Equations? encode_last_chunk (e : Encoding) (m : Z) (answer : list byte)
  : result (list byte) by wf (bitlen m) lt :=
  encode_last_chunk e m answer with Z_gt_dec m 0 => {
    | left _ :=
        c ← index (alphabet e) (Z.rem m 62);
        encode_last_chunk e (Z.quot m 62) (answer ++ [c]);
    | right _ := Ok answer }.
Proof. rewrite Z.quot_div_nonneg by lia. apply bitlen_div; lia. Qed.

(** [for i := 0; i < 10; i++ { answer = append(answer, e.alphabet[m%62]); m /= 62 }],
    with [k] iterations to go. *)
Fixpoint encode_full_chunk (e : Encoding) (k : nat) (m : Z) (answer : list byte)
  : result (list byte) :=
  match k with
  | O => Ok answer
  | S k' =>
      c ← index (alphabet e) (Z.rem m 62);
      encode_full_chunk e k' (Z.quot m 62) (answer ++ [c])
  end.

Lemma bigRadix10_ge2 : 2 <= bigRadix10.
Proof. vm_compute. discriminate. Qed.

(** The body of the division loop after [x.DivMod(x, bigRadix10, mod)]:
    [q] is the new [x], [md] is [mod], and [m := mod.Int64()]. *)
Definition encode_chunk (e : Encoding) (q md : Z) (answer : list byte)
  : result (list byte) :=
  if q =? 0
  then encode_last_chunk e (to_int64 md) answer
  else encode_full_chunk e 10 (to_int64 md) answer.

(* The loop body stays folded while the loop is defined. *)
#[local] Opaque encode_chunk.

(** [for x.Sign() > 0 { x.DivMod(x, bigRadix10, mod); ... }] *)
Equations? encode_chunks (e : Encoding) (x : Z) (answer : list byte)
  : result (list byte) by wf (bitlen x) lt :=
  encode_chunks e x answer with Z_gt_dec x 0 => {
    | left _ :=
        answer' ← encode_chunk e (x / bigRadix10) (x mod bigRadix10) answer;
        encode_chunks e (x / bigRadix10) answer';
    | right _ := Ok answer }.
Proof. apply bitlen_div; [lia | apply bigRadix10_ge2]. Qed.

#[local] Transparent encode_chunk.

(** [for _, i := range b { if i != 0 { break }; answer = append(answer, e.alphabetIdx0) }] *)
Fixpoint encode_leading_zeros (e : Encoding) (b : list byte) (answer : list byte)
  : list byte :=
  match b with
  | [] => answer
  | i :: rest =>
      if negb (b2z i =? 0) then answer
      else encode_leading_zeros e rest (answer ++ [alphabetIdx0 e])
  end.

(** [for i := 0; i < alen/2; i++ { answer[i], answer[alen-1-i] = answer[alen-1-i], answer[i] }],
    at index [i] with [k] iterations to go. *)
Fixpoint reverse_loop (k : nat) (i : Z) (answer : list byte) : result (list byte) :=
  match k with
  | O => Ok answer
  | S k' =>
      let alen := Z.of_nat (length answer) in
      hi ← index answer (alen - 1 - i);
      lo ← index answer i;
      answer1 ← store answer i hi;
      answer2 ← store answer1 (alen - 1 - i) lo;
      reverse_loop k' (i + 1) answer2
  end.

Definition reverse_in_place (answer : list byte) : result (list byte) :=
  reverse_loop (Z.to_nat (Z.quot (Z.of_nat (length answer)) 2)) 0 answer.

(** The capacity hint [maxlen] of the output buffer has no effect on the
    result and is left out. *)
Definition EncodeToString (e : Encoding) (b : list byte) : result (list byte) :=
  let x := SetBytes b in
  answer ← encode_chunks e x [];
  reverse_in_place (encode_leading_zeros e b answer).

(** ** EncodeUint64 *)

(** [for n > 0 { n, mod = n/radix, n%radix; i--; answer[i] = e.alphabet[mod] }] *)
Equations? EncodeUint64_loop (e : Encoding) (n : Z) (i : Z) (answer : list byte)
  : result (Z * list byte) by wf (bitlen n) lt :=
  EncodeUint64_loop e n i answer with Z_gt_dec n 0 => {
    | left _ :=
        c ← index (alphabet e) (n mod radix);
        answer' ← store answer (i - 1) c;
        EncodeUint64_loop e (n / radix) (i - 1) answer';
    | right _ := Ok (i, answer) }.
Proof. all: apply bitlen_div; unfold radix; lia. Qed.

(** [string(b)] for a byte [b]: the conversion of an integer to a string
    gives the UTF-8 encoding of the code point [b], one byte below 0x80
    and the two bytes [0xC0 | b>>6], [0x80 | b&0x3F] from 0x80 on. *)
Definition string_of_byte (b : byte) : list byte :=
  if b2z b <? 128 then [b]
  else [z2b (Z.lor 192 (Z.shiftr (b2z b) 6));
        z2b (Z.lor 128 (Z.land (b2z b) 63))].

(** [if n == 0 { return string(e.alphabetIdx0) }], then the digit loop on
    a buffer of 12 bytes and [string(answer[i:])]. *)
Definition EncodeUint64 (e : Encoding) (n : Z) : result (list byte) :=
  if n =? 0 then Ok (string_of_byte (alphabetIdx0 e))
  else
    r ← EncodeUint64_loop e n 12 (replicate 12 x00);
    slice_from r.2 r.1.

(** ** DecodeToUint64 *)

(** The two [fmt.Errorf] values, by the arguments they format. *)
Inductive decode_error : Type :=
| InvalidCharacter (c : byte) (src : list byte)
| Overflow (src : list byte).

(** [for _, c := range []byte(src) { ... }] over the bytes still to read,
    with accumulator [n].  The variable [i] is a [byte], and the code
    compares it with [0]. *)
Fixpoint DecodeToUint64_loop (e : Encoding) (src rest : list byte) (n : Z)
  : result (Z * option decode_error) :=
  match rest with
  | [] => Ok (n, None)
  | c :: rest' =>
      i ← index (decodeMap e) (b2z c);
      if b2z i <? 0 then Ok (0, Some (InvalidCharacter c src))
      else
        let m := wrap64 (n * radix + b2z i) in
        if m <? n then Ok (0, Some (Overflow src))
        else DecodeToUint64_loop e src rest' m
  end.

Definition DecodeToUint64 (e : Encoding) (src : list byte)
  : result (Z * option decode_error) :=
  DecodeToUint64_loop e src src 0.

(** ** DecodeString *)

(** Go's [for _, v := range s] over a string decodes UTF-8: a byte below
    [0x80] is its own rune, a well-formed multi-byte sequence gives its
    code point, and anything else gives [runeError] and advances by one
    byte (the runtime's [decoderune]). *)
Definition runeError : Z := 65533.
Definition is_cont (c : byte) : bool := (128 <=? b2z c) && (b2z c <=? 191).

Fixpoint range_string (s : list byte) : list Z :=
  match s with
  | [] => []
  | c0 :: s1 =>
      let invalid := runeError :: range_string s1 in
      if b2z c0 <? 128 then b2z c0 :: range_string s1
      else if (192 <=? b2z c0) && (b2z c0 <? 224) then
        match s1 with
        | c1 :: s2 =>
            if is_cont c1 then
              let r := Z.lor (Z.shiftl (Z.land (b2z c0) 31) 6)
                             (Z.land (b2z c1) 63) in
              if 127 <? r then r :: range_string s2 else invalid
            else invalid
        | _ => invalid
        end
      else if (224 <=? b2z c0) && (b2z c0 <? 240) then
        match s1 with
        | c1 :: c2 :: s3 =>
            if is_cont c1 && is_cont c2 then
              let r := Z.lor (Z.lor (Z.shiftl (Z.land (b2z c0) 15) 12)
                                    (Z.shiftl (Z.land (b2z c1) 63) 6))
                             (Z.land (b2z c2) 63) in
              if (2047 <? r) && negb ((55296 <=? r) && (r <=? 57343))
              then r :: range_string s3 else invalid
            else invalid
        | _ => invalid
        end
      else if (240 <=? b2z c0) && (b2z c0 <? 248) then
        match s1 with
        | c1 :: c2 :: c3 :: s4 =>
            if is_cont c1 && is_cont c2 && is_cont c3 then
              let r := Z.lor (Z.lor (Z.lor (Z.shiftl (Z.land (b2z c0) 7) 18)
                                           (Z.shiftl (Z.land (b2z c1) 63) 12))
                                    (Z.shiftl (Z.land (b2z c2) 63) 6))
                             (Z.land (b2z c3) 63) in
              if (65535 <? r) && (r <=? 1114111)
              then r :: range_string s4 else invalid
            else invalid
        | _ => invalid
        end
      else invalid
  end.

(** [for _, v := range t[:n] { ch := e.decodeMap[v]; if ch == 255 { return []byte("") };
    total = total*62 + uint64(ch) }] over the runes still to read.
    [None] is the early return. *)
Fixpoint decode_chunk (e : Encoding) (runes : list Z) (total : Z)
  : result (option Z) :=
  match runes with
  | [] => Ok (Some total)
  | v :: rest =>
      ch ← index (decodeMap e) v;
      if b2z ch =? 255 then Ok None
      else decode_chunk e rest (wrap64 (total * 62 + b2z ch))
  end.

(** [n := len(t); if n > 10 { n = 10 }] *)
Definition chunk_len (t : list byte) : Z :=
  if 10 <? Z.of_nat (length t) then 10 else Z.of_nat (length t).

(** One turn of [for t := b; len(t) > 0; { ... }]: the chunk [t[:n]] is
    folded into [answer]. *)
Definition decode_step (e : Encoding) (t : list byte) (answer : Z)
  : result (option Z) :=
  let n := chunk_len t in
  r ← decode_chunk e (range_string (take (Z.to_nat n) t)) 0;
  match r with
  | None => Ok None
  | Some total =>
      m ← index bigRadix n;
      Ok (Some (answer * m + total))
  end.

(* The loop body stays folded while the loop is defined. *)
#[local] Opaque decode_step.

(** [for t := b; len(t) > 0; { ...; t = t[n:] }] *)
Equations? decode_chunks (e : Encoding) (t : list byte) (answer : Z)
  : result (option Z) by wf (length t) lt :=
  decode_chunks e [] answer := Ok (Some answer);
  decode_chunks e (c :: t') answer :=
    r ← decode_step e (c :: t') answer;
    match r with
    | None => Ok None
    | Some answer' =>
        decode_chunks e (drop (Z.to_nat (chunk_len (c :: t'))) (c :: t')) answer'
    end.
Proof.
  rewrite length_drop. unfold chunk_len.
  destruct (10 <? Z.of_nat (length (c :: t'))); simpl length; lia.
Qed.

#[local] Transparent decode_step.

(** [for numZeros = 0; numZeros < len(b); numZeros++ { if b[numZeros] != e.alphabetIdx0 { break } }] *)
Fixpoint count_zero_symbols (e : Encoding) (b : list byte) : nat :=
  match b with
  | [] => O
  | c :: rest =>
      if negb (Byte.eqb c (alphabetIdx0 e)) then O
      else S (count_zero_symbols e rest)
  end.

Definition DecodeString (e : Encoding) (b : list byte) : result (list byte) :=
  r ← decode_chunks e b 0;
  match r with
  | None => Ok []
  | Some answer =>
      let tmpval := Bytes answer in
      let numZeros := count_zero_symbols e b in
      let flen := (numZeros + length tmpval)%nat in
      let val := replicate flen x00 in
      Ok (copy_at val numZeros tmpval)
  end.

(** ** The test helper [marshallUint64] *)

(** [binary.BigEndian.PutUint64(b, n)] on a fresh 8-byte slice. *)
Definition PutUint64 (v : Z) : list byte :=
  [ z2b (Z.shiftr v 56); z2b (Z.shiftr v 48); z2b (Z.shiftr v 40);
    z2b (Z.shiftr v 32); z2b (Z.shiftr v 24); z2b (Z.shiftr v 16);
    z2b (Z.shiftr v 8); z2b v ].

(** [for i, ch := range b { if ch != 0 { return b[i:] } }]; [None] when
    the loop falls through. *)
Fixpoint first_nonzero_suffix (b : list byte) : option (list byte) :=
  match b with
  | [] => None
  | ch :: rest =>
      if negb (b2z ch =? 0) then Some b else first_nonzero_suffix rest
  end.

Definition removeLeadingZeros (b : list byte) : list byte :=
  match first_nonzero_suffix b with
  | Some r => r
  | None => if (0 <? length b)%nat then take 1 b else b
  end.

Definition marshallUint64 (n : Z) : list byte :=
  removeLeadingZeros (PutUint64 n).

(** ** Base-62 digit strings, for the statements below *)

(** The digits of [x], least significant first, none for [x <= 0]. *)
Equations? to_digits (x : Z) : list Z by wf (bitlen x) lt :=
  to_digits x with Z_gt_dec x 0 => {
    | left _ := x mod 62 :: to_digits (x / 62);
    | right _ := [] }.
Proof. apply bitlen_div; lia. Qed.

(** Exactly [k] digits of [m], least significant first. *)
Fixpoint fixed_digits (k : nat) (m : Z) : list Z :=
  match k with
  | O => []
  | S k' => m mod 62 :: fixed_digits k' (m / 62)
  end.

(** The value of a digit string read most significant digit first,
    continuing from [acc]. *)
Definition from_digits (ds : list Z) (acc : Z) : Z :=
  fold_left (fun a d => a * 62 + d) ds acc.

Definition is_digit (d : Z) : Prop := 0 <= d < 62.

(** The symbol of digit [d]. *)
Definition sym (e : Encoding) (d : Z) : byte :=
  default x00 (alphabet e !! Z.to_nat d).

(** Length of the maximal prefix of [0x00] bytes. *)
Fixpoint leading_zeros (b : list byte) : nat :=
  match b with
  | c :: rest => if b2z c =? 0 then S (leading_zeros rest) else O
  | [] => O
  end.

(** A well-formed table: the two arrays have their sizes, the zero
    symbol is the first symbol, the symbols are pairwise distinct, and
    [decodeMap] inverts [alphabet] and marks every other byte with 255. *)
Record table_ok (e : Encoding) : Prop := {
  ok_alphabet_length : length (alphabet e) = 62%nat;
  ok_decodeMap_length : length (decodeMap e) = 256%nat;
  ok_idx0 : alphabet e !! 0%nat = Some (alphabetIdx0 e);
  ok_distinct : NoDup (alphabet e);
  ok_inverse : forall (i : nat) (c : byte),
      alphabet e !! i = Some c -> decodeMap e !! b2n c = Some (z2b (Z.of_nat i));
  ok_invalid : forall c : byte,
      c ∉ alphabet e -> decodeMap e !! b2n c = Some xff
}.

(** ** Calls through the receiver *)

(** The four methods take the table by pointer, [e *Encoding], so a call
    could in principle write to it.  A call is modelled by its outcome
    together with the table it leaves behind; no method body assigns to
    a field of [e]. *)
Inductive call : Type :=
| CallEncodeToString (b : list byte)
| CallDecodeString (s : list byte)
| CallEncodeUint64 (n : Z)
| CallDecodeToUint64 (src : list byte).

Inductive outcome : Type :=
| OutBytes (r : result (list byte))
| OutUint64 (r : result (Z * option decode_error)).

Definition invoke (e : Encoding) (c : call) : outcome * Encoding :=
  match c with
  | CallEncodeToString b => (OutBytes (EncodeToString e b), e)
  | CallDecodeString s => (OutBytes (DecodeString e s), e)
  | CallEncodeUint64 n => (OutBytes (EncodeUint64 e n), e)
  | CallDecodeToUint64 src => (OutUint64 (DecodeToUint64 e src), e)
  end.

(** The table after a sequence of calls. *)
Fixpoint table_after (e : Encoding) (cs : list call) : Encoding :=
  match cs with
  | [] => e
  | c :: rest => table_after (invoke e c).2 rest
  end.

(** ** The minimal big-endian bytes of an integer, as the specification
    words it: no leading zero byte, and the single byte [0x00] for 0. *)
Definition minimal_big_endian (n : Z) : list byte :=
  if n =? 0 then [x00] else Bytes n.

#[global] Instance byte_eq_decision : EqDecision byte := Byte.byte_eq_dec.

(** ** The line wrapper of the command-line tool: [processLine] *)

(** [utf8.DecodeRune] reads the first rune of a byte slice and its
    width.  The first byte gives the width and the range its second
    byte must lie in; a malformed or cut sequence is [runeError] of
    width 1. *)
Definition accept_range (p0 : Z) : option (Z * Z * Z) :=
  if (194 <=? p0) && (p0 <=? 223) then Some (2, 128, 191)
  else if p0 =? 224 then Some (3, 160, 191)
  else if (225 <=? p0) && (p0 <=? 236) then Some (3, 128, 191)
  else if p0 =? 237 then Some (3, 128, 159)
  else if (238 <=? p0) && (p0 <=? 239) then Some (3, 128, 191)
  else if p0 =? 240 then Some (4, 144, 191)
  else if (241 <=? p0) && (p0 <=? 243) then Some (4, 128, 191)
  else if p0 =? 244 then Some (4, 128, 143)
  else None.

Definition DecodeRune (p : list byte) : Z * Z :=
  match p with
  | [] => (runeError, 0)
  | p0 :: rest =>
      match accept_range (b2z p0) with
      | None => (if b2z p0 <? 128 then b2z p0 else runeError, 1)
      | Some (sz, lo, hi) =>
          if Z.of_nat (length p) <? sz then (runeError, 1)
          else
            match rest with
            | [] => (runeError, 1)
            | b1 :: rest1 =>
                if (b2z b1 <? lo) || (hi <? b2z b1) then (runeError, 1)
                else if sz <=? 2 then
                  (Z.lor (Z.shiftl (Z.land (b2z p0) 31) 6) (Z.land (b2z b1) 63), 2)
                else
                  match rest1 with
                  | [] => (runeError, 1)
                  | b2 :: rest2 =>
                      if negb (is_cont b2) then (runeError, 1)
                      else if sz <=? 3 then
                        (Z.lor (Z.lor (Z.shiftl (Z.land (b2z p0) 15) 12)
                                      (Z.shiftl (Z.land (b2z b1) 63) 6))
                               (Z.land (b2z b2) 63), 3)
                      else
                        match rest2 with
                        | [] => (runeError, 1)
                        | b3 :: _ =>
                            if negb (is_cont b3) then (runeError, 1)
                            else
                              (Z.lor (Z.lor (Z.lor (Z.shiftl (Z.land (b2z p0) 7) 18)
                                                   (Z.shiftl (Z.land (b2z b1) 63) 12))
                                            (Z.shiftl (Z.land (b2z b2) 63) 6))
                                     (Z.land (b2z b3) 63), 4)
                        end
                  end
            end
      end
  end.

(** [unicode.IsSpace]: the Latin-1 white space, and beyond Latin-1 the
    runes of the [White_Space] table. *)
Definition IsSpace (r : Z) : bool :=
  if r <=? 255 then
    (r =? 9) || (r =? 10) || (r =? 11) || (r =? 12) || (r =? 13) ||
    (r =? 32) || (r =? 133) || (r =? 160)
  else
    (r =? 5760) || ((8192 <=? r) && (r <=? 8202)) ||
    ((8232 <=? r) && (r <=? 8233)) || (r =? 8239) || (r =? 8287) ||
    (r =? 12288).

(** The rune [bytes.IndexFunc] looks at in a non-empty rest of the slice:
    [r := rune(s[start]); if r >= utf8.RuneSelf { r, wid = utf8.DecodeRune(s[start:]) }]. *)
Definition rune_at (s : list byte) : Z * Z :=
  match s with
  | [] => (runeError, 0)
  | c :: _ => if b2z c <? 128 then (b2z c, 1) else DecodeRune s
  end.

Lemma rune_at_width (c : byte) (t : list byte) : 1 <= (rune_at (c :: t)).2 <= 4.
Proof.
  unfold rune_at. destruct (b2z c <? 128); [simpl; lia|].
  unfold DecodeRune.
  destruct (accept_range (b2z c)) as [[[sz lo] hi]|]; [|simpl; lia].
  repeat first
    [ progress (simpl snd; try lia)
    | match goal with
      | |- context [if ?b then _ else _] => destruct b
      | |- context [match ?l with [] => _ | _ :: _ => _ end] => destruct l
      end ].
Qed.

(** [indexFunc(s, f, truth)], on the rest [s[start:]] of the slice. *)
Equations? indexFunc (f : Z -> bool) (truth : bool) (s : list byte) (start : Z)
  : Z by wf (length s) lt :=
  indexFunc f truth [] start := -1;
  indexFunc f truth (c :: t) start :=
    if Bool.eqb (f (rune_at (c :: t)).1) truth then start
    else indexFunc f truth (drop (Z.to_nat (rune_at (c :: t)).2) (c :: t))
                   (start + (rune_at (c :: t)).2).
Proof.
  pose proof (rune_at_width c t). rewrite length_drop. simpl length. lia.
Qed.

Definition IndexFunc (s : list byte) (f : Z -> bool) : Z := indexFunc f true s 0.

(** [s[lo:hi]]: the bounds are checked. *)
Definition slice {A} (l : list A) (lo hi : Z) : result (list A) :=
  if (0 <=? lo) && (lo <=? hi) && (hi <=? Z.of_nat (length l))
  then Ok (take (Z.to_nat (hi - lo)) (drop (Z.to_nat lo) l))
  else Panic.

(** How one turn of the loop of [processLine] ends: with a [return] or a
    [break], or at the loop test with new [i], [j] and [res]. *)
Inductive turn (E : Type) : Type :=
| Return (out : list byte) (err : option E)
| Next (i j : Z) (res : list byte).
Arguments Return {E} out err.
Arguments Next {E} i j res.

(** The body of [for j < len(src) { ... }].  The callback [f] returns a
    byte slice and an error, or panics. *)
Definition processLine_turn {E} (f : list byte -> result (list byte * option E))
    (src : list byte) (i : Z) (res : list byte) : result (turn E) :=
  let len := Z.of_nat (length src) in
  s_i ← slice_from src i;
  let j := IndexFunc s_i IsSpace in
  let j := if 0 <=? j then j + i else len in
  tok ← slice src i j;
  r ← f tok;
  match r.2 with
  | Some err => Ok (Return [] (Some err))
  | None =>
      let res := res ++ r.1 in
      if j =? len then Ok (Return res None)
      else
        s_j ← slice_from src j;
        let i := IndexFunc s_j (fun r => negb (IsSpace r)) in
        let i := if 0 <=? i then i + j else len in
        ws ← slice src j i;
        let res := res ++ ws in
        if i =? len then Ok (Return res None)
        else Ok (Next i j res)
  end.


Lemma indexFunc_turn (f : Z -> bool) (truth : bool) (s : list byte) (start : Z) :
  indexFunc f truth s start =
  match s with
  | [] => -1
  | _ =>
      if Bool.eqb (f (rune_at s).1) truth then start
      else indexFunc f truth (drop (Z.to_nat (rune_at s).2) s) (start + (rune_at s).2)
  end.
Proof.
  destruct s.
  - rewrite indexFunc_equation_1. reflexivity.
  - rewrite indexFunc_equation_2. reflexivity.
Qed.

#[global] Opaque indexFunc.

(** [indexFunc] returns -1 or the index of a rune it has tested. *)
Lemma indexFunc_found (f : Z -> bool) (truth : bool) (n : nat) :
  forall (s : list byte) (start : Z),
    (length s <= n)%nat -> 0 <= start ->
    indexFunc f truth s start = -1 \/
    (start <= indexFunc f truth s start < start + Z.of_nat (length s) /\
     Bool.eqb
       (f (rune_at (drop (Z.to_nat (indexFunc f truth s start - start)) s)).1)
       truth = true).
Proof.
  induction n as [|n IH]; intros s start Hlen Hstart.
  - destruct s; [|simpl in Hlen; lia]. left. by rewrite indexFunc_turn.
  - rewrite indexFunc_turn. destruct s as [|c t]; [by left|].
    destruct (Bool.eqb (f (rune_at (c :: t)).1) truth) eqn:Ef.
    + right. rewrite Z.sub_diag. change (Z.to_nat 0) with 0%nat.
      rewrite drop_0. split; [simpl length; lia|exact Ef].
    + pose proof (rune_at_width c t) as Hw.
      set (w := (rune_at (c :: t)).2) in *.
      set (s' := drop (Z.to_nat w) (c :: t)).
      assert (Hs' : (length s' <= n)%nat).
      { unfold s'. rewrite length_drop. simpl in *. lia. }
      destruct (IH s' (start + w) Hs' ltac:(lia)) as [Hm|[Hb Hf]]; [by left|].
      right. set (k := indexFunc f truth s' (start + w)) in *.
      assert (Hlen' : (length s' <= length (c :: t))%nat)
        by (unfold s'; rewrite length_drop; lia).
      split.
      * unfold s' in Hb. rewrite length_drop in Hb. lia.
      * replace (Z.to_nat (k - start))
          with (Z.to_nat w + Z.to_nat (k - (start + w)))%nat by lia.
        rewrite <- drop_drop. exact Hf.
Qed.

(** One turn of the loop that goes on to the next moves [i] forward and
    keeps it inside the line: the white space found at [j] is at least
    one byte wide. *)
Lemma processLine_turn_Next {E}
    (f : list byte -> result (list byte * option E))
    (src : list byte) (i : Z) (res : list byte) (i' j' : Z) (res' : list byte) :
  processLine_turn f src i res = Ok (Next i' j' res') ->
  0 <= i <= j' /\ j' < i' < Z.of_nat (length src).
Proof.
  unfold processLine_turn, slice_from, slice.
  destruct (Z.leb_spec 0 i); [|discriminate].
  destruct (Z.leb_spec i (Z.of_nat (length src))); [|discriminate].
  cbn [andb mbind result_bind].
  set (s_i := drop (Z.to_nat i) src).
  assert (Hsi : Z.of_nat (length s_i) = Z.of_nat (length src) - i).
  { unfold s_i. rewrite length_drop. lia. }
  destruct (indexFunc_found IsSpace true (length s_i) s_i 0 ltac:(lia) ltac:(lia))
    as [Hm|[Hb Hf]]; unfold IndexFunc.
  - rewrite Hm. cbn [Z.leb Z.compare].
    destruct (Z.leb_spec i (Z.of_nat (length src))); [|lia].
    destruct (Z.leb_spec (Z.of_nat (length src)) (Z.of_nat (length src))); [|lia].
    cbn [andb mbind result_bind].
    destruct (f _) as [[got [err|]]|]; cbn [mbind result_bind snd fst]; try discriminate.
    rewrite Z.eqb_refl. discriminate.
  - set (j0 := indexFunc IsSpace true s_i 0) in *.
    destruct (Z.leb_spec 0 j0); [|lia].
    destruct (Z.leb_spec i (j0 + i)); [|lia].
    destruct (Z.leb_spec (j0 + i) (Z.of_nat (length src))); [|lia].
    cbn [andb mbind result_bind].
    destruct (f _) as [[got [err|]]|]; cbn [mbind result_bind snd fst]; try discriminate.
    destruct (Z.eqb_spec (j0 + i) (Z.of_nat (length src))); [discriminate|].
    destruct (Z.leb_spec 0 (j0 + i)); [|lia].
    cbn [andb mbind result_bind].
    set (s_j := drop (Z.to_nat (j0 + i)) src).
    assert (Hsj : s_j = drop (Z.to_nat (j0 - 0)) s_i).
    { unfold s_j, s_i. rewrite drop_drop. f_equal. lia. }
    assert (Hlj : Z.of_nat (length s_j) = Z.of_nat (length src) - (j0 + i)).
    { unfold s_j. rewrite length_drop. lia. }
    rewrite <- Hsj in Hf.
    destruct (indexFunc_found (fun r => negb (IsSpace r)) true (length s_j) s_j 0
                ltac:(lia) ltac:(lia)) as [Hm'|[Hb' _]].
    + rewrite Hm'. cbn [Z.leb Z.compare].
      destruct (Z.leb_spec (j0 + i) (Z.of_nat (length src))); [|lia].
      destruct (Z.leb_spec (Z.of_nat (length src)) (Z.of_nat (length src))); [|lia].
      cbn [andb mbind result_bind]. rewrite Z.eqb_refl. discriminate.
    + set (i0 := indexFunc (fun r => negb (IsSpace r)) true s_j 0) in *.
      assert (Hi0 : i0 <> 0).
      { intros Hzero. unfold i0 in Hzero. rewrite indexFunc_turn in Hzero.
        destruct s_j as [|c t]; [discriminate|].
        apply Bool.eqb_prop in Hf. rewrite Hf in Hzero.
        cbn [negb Bool.eqb] in Hzero.
        pose proof (rune_at_width c t) as Hw.
        set (w := (rune_at (c :: t)).2) in *.
        destruct (indexFunc_found (fun r => negb (IsSpace r)) true
                    (length (drop (Z.to_nat w) (c :: t)))
                    (drop (Z.to_nat w) (c :: t)) (0 + w) ltac:(lia) ltac:(lia))
          as [Hx|[Hx _]]; lia. }
      destruct (Z.leb_spec 0 i0); [|lia].
      destruct (Z.leb_spec (j0 + i) (i0 + (j0 + i))); [|lia].
      destruct (Z.leb_spec (i0 + (j0 + i)) (Z.of_nat (length src))); [|lia].
      cbn [andb mbind result_bind].
      destruct (Z.eqb_spec (i0 + (j0 + i)) (Z.of_nat (length src))); [discriminate|].
      intros [= <- <- _]. lia.
Qed.

(** A value together with the equation that it is the value. *)
Definition inspect {A : Type} (a : A) : {b : A | a = b} := exist _ a eq_refl.

(* The loop body stays folded while the loop is defined. *)
#[local] Opaque processLine_turn.

(** [for j < len(src) { ... }] *)
Equations? processLine_loop {E} (f : list byte -> result (list byte * option E))
    (src : list byte) (i j : Z) (res : list byte)
  : result (list byte * option E)
  by wf (Z.to_nat (Z.of_nat (length src) - i)) lt :=
  processLine_loop f src i j res with Z_lt_dec j (Z.of_nat (length src)) => {
    | right _ := Ok (res, None);
    | left _ with inspect (processLine_turn f src i res) => {
        | exist _ Panic _ := Panic;
        | exist _ (Ok (Return out err)) _ := Ok (out, err);
        | exist _ (Ok (Next i' j' res')) Hturn :=
            processLine_loop f src i' j' res' } }.
Proof. apply processLine_turn_Next in Hturn. lia. Qed.

#[local] Transparent processLine_turn.

(** [processLine(src, f)]: [var i, j int; var res []byte], then the loop. *)
Definition processLine {E} (src : list byte)
    (f : list byte -> result (list byte * option E))
  : result (list byte * option E) :=
  processLine_loop f src 0 0 [].

(** The callback of [runInternal] in encode mode:
    [return []byte(base62.StdEncoding.EncodeToString(in)), nil]. *)
Definition encode_token (E : Type) (tok : list byte)
  : result (list byte * option E) :=
  s ← EncodeToString StdEncoding tok;
  Ok (s, None).

(** A line cut into tokens, each followed by a gap, and put together
    again with [g] applied to the tokens. *)
Fixpoint reassemble (g : list byte -> list byte)
    (ps : list (list byte * list byte)) : list byte :=
  match ps with
  | [] => []
  | (tok, gap) :: rest => g tok ++ gap ++ reassemble g rest
  end.

(** No ASCII byte of a token is white space, and every ASCII byte of a
    gap is. *)
Definition token_ok (tok : list byte) : Prop :=
  Forall (fun c => b2z c < 128 -> IsSpace (b2z c) = false) tok.
Definition gap_ok (gap : list byte) : Prop :=
  Forall (fun c => b2z c < 128 -> IsSpace (b2z c) = true) gap.

(** What [encode_token] returns as bytes. *)
Definition encode_total (tok : list byte) : list byte :=
  match EncodeToString StdEncoding tok with
  | Ok s => s
  | Panic => []
  end.

(** * Properties *)

(** ** Bytes *)

Lemma b2z_range (b : byte) : 0 <= b2z b < 256.
Proof. unfold b2z. pose proof (Byte.to_N_bounded b). lia. Qed.

Lemma z2b_b2z (b : byte) : z2b (b2z b) = b.
Proof.
  unfold z2b, b2z. pose proof (Byte.to_N_bounded b).
  rewrite Z.mod_small by lia. rewrite N2Z.id, Byte.of_to_N. reflexivity.
Qed.

Lemma b2z_z2b_mod (z : Z) : b2z (z2b z) = z mod 256.
Proof.
  pose proof (Z.mod_pos_bound z 256 ltac:(lia)) as Hm.
  unfold z2b, b2z.
  destruct (Byte.of_N (Z.to_N (z mod 256))) eqn:E; simpl.
  - apply Byte.to_of_N in E. lia.
  - apply Byte.of_N_None_iff in E. lia.
Qed.

Lemma b2z_z2b (z : Z) : 0 <= z < 256 -> b2z (z2b z) = z.
Proof. intros H. rewrite b2z_z2b_mod. apply Z.mod_small. lia. Qed.

Lemma b2z_inj (a b : byte) : b2z a = b2z b -> a = b.
Proof. intros H. rewrite <- (z2b_b2z a), <- (z2b_b2z b). congruence. Qed.

Lemma b2n_b2z (b : byte) : b2n b = Z.to_nat (b2z b).
Proof. unfold b2n, b2z. rewrite Byte.to_nat_via_N. lia. Qed.

Lemma b2n_inj (a b : byte) : b2n a = b2n b -> a = b.
Proof.
  rewrite !b2n_b2z. intros H. apply b2z_inj.
  pose proof (b2z_range a). pose proof (b2z_range b). lia.
Qed.

Lemma b2n_lt (b : byte) : (b2n b < 256)%nat.
Proof. rewrite b2n_b2z. pose proof (b2z_range b). lia. Qed.

Lemma b2z_zero_iff (b : byte) : b2z b = 0 <-> b = x00.
Proof.
  split; [intros H; apply b2z_inj; rewrite H; reflexivity | intros ->; reflexivity].
Qed.

(** ** Array accesses *)

Lemma index_Ok {A} (l : list A) (i : Z) (a : A) :
  0 <= i -> l !! Z.to_nat i = Some a -> index l i = Ok a.
Proof.
  intros Hi Hl. unfold index. apply lookup_lt_Some in Hl as Hlt.
  rewrite Hl.
  destruct (0 <=? i) eqn:E1; [|lia].
  destruct (i <? Z.of_nat (length l)) eqn:E2; [reflexivity|lia].
Qed.

Lemma store_Ok {A} (l : list A) (i : Z) (x : A) :
  0 <= i < Z.of_nat (length l) -> store l i x = Ok (<[Z.to_nat i := x]> l).
Proof.
  intros H. unfold store.
  destruct (0 <=? i) eqn:E1; [|lia].
  destruct (i <? Z.of_nat (length l)) eqn:E2; [reflexivity|lia].
Qed.

Lemma slice_from_Ok {A} (l : list A) (i : Z) :
  0 <= i <= Z.of_nat (length l) -> slice_from l i = Ok (drop (Z.to_nat i) l).
Proof.
  intros H. unfold slice_from.
  destruct (Z.leb_spec 0 i); [|lia].
  destruct (Z.leb_spec i (Z.of_nat (length l))); [reflexivity|lia].
Qed.

(** ** The loops, one turn at a time *)

Lemma Bytes_aux_turn (x : Z) (acc : list byte) :
  Bytes_aux x acc =
  if Z_gt_dec x 0 then Bytes_aux (x / 256) (z2b (x mod 256) :: acc) else acc.
Proof.
  rewrite Bytes_aux_equation_1. unfold Bytes_aux_clause_1.
  destruct (Z_gt_dec x 0); reflexivity.
Qed.

Lemma encode_last_chunk_turn (e : Encoding) (m : Z) (answer : list byte) :
  encode_last_chunk e m answer =
  if Z_gt_dec m 0 then
    c ← index (alphabet e) (Z.rem m 62);
    encode_last_chunk e (Z.quot m 62) (answer ++ [c])
  else Ok answer.
Proof.
  rewrite encode_last_chunk_equation_1. unfold encode_last_chunk_clause_1.
  destruct (Z_gt_dec m 0); reflexivity.
Qed.

Lemma encode_chunks_turn (e : Encoding) (x : Z) (answer : list byte) :
  encode_chunks e x answer =
  if Z_gt_dec x 0 then
    answer' ← encode_chunk e (x / bigRadix10) (x mod bigRadix10) answer;
    encode_chunks e (x / bigRadix10) answer'
  else Ok answer.
Proof.
  rewrite encode_chunks_equation_1. unfold encode_chunks_clause_1.
  destruct (Z_gt_dec x 0); reflexivity.
Qed.

Lemma EncodeUint64_loop_turn (e : Encoding) (n i : Z) (answer : list byte) :
  EncodeUint64_loop e n i answer =
  if Z_gt_dec n 0 then
    c ← index (alphabet e) (n mod radix);
    answer' ← store answer (i - 1) c;
    EncodeUint64_loop e (n / radix) (i - 1) answer'
  else Ok (i, answer).
Proof.
  rewrite EncodeUint64_loop_equation_1. unfold EncodeUint64_loop_clause_1.
  destruct (Z_gt_dec n 0); reflexivity.
Qed.

Lemma decode_chunks_turn (e : Encoding) (t : list byte) (answer : Z) :
  decode_chunks e t answer =
  match t with
  | [] => Ok (Some answer)
  | _ =>
      r ← decode_step e t answer;
      match r with
      | None => Ok None
      | Some answer' =>
          decode_chunks e (drop (Z.to_nat (chunk_len t)) t) answer'
      end
  end.
Proof.
  destruct t.
  - rewrite decode_chunks_equation_1. reflexivity.
  - rewrite decode_chunks_equation_2. reflexivity.
Qed.

#[global] Opaque Bytes_aux encode_last_chunk encode_chunks EncodeUint64_loop
  decode_chunks.

(** ** The table built by [New] *)

Lemma copy62_full (alpha : list byte) : length alpha = 62%nat -> copy62 alpha = alpha.
Proof.
  intros H. unfold copy62, copy_at.
  rewrite length_replicate, drop_replicate, H. simpl.
  rewrite app_nil_r. apply take_ge. lia.
Qed.

Lemma length_copy62 (alpha : list byte) : length (copy62 alpha) = 62%nat.
Proof.
  unfold copy62, copy_at.
  rewrite !length_app, !length_take, length_drop, !length_replicate. lia.
Qed.

Lemma length_fill_decodeMap (alpha : list byte) :
  forall i dm, length (fill_decodeMap i alpha dm) = length dm.
Proof.
  induction alpha as [|b rest IH]; intros i dm; simpl; [reflexivity|].
  rewrite IH. apply length_insert.
Qed.

Lemma fill_decodeMap_other (alpha : list byte) (c : byte) :
  c ∉ alpha -> forall i dm, fill_decodeMap i alpha dm !! b2n c = dm !! b2n c.
Proof.
  induction alpha as [|b rest IH]; intros Hc i dm; simpl; [reflexivity|].
  apply not_elem_of_cons in Hc as [Hne Hrest].
  rewrite IH by assumption.
  apply list_lookup_insert_ne. intros Heq. apply Hne. symmetry. by apply b2n_inj.
Qed.

Lemma fill_decodeMap_at (alpha : list byte) :
  NoDup alpha ->
  forall (j : nat) (c : byte) (i : Z) (dm : list byte),
    length dm = 256%nat ->
    alpha !! j = Some c ->
    fill_decodeMap i alpha dm !! b2n c = Some (z2b (i + Z.of_nat j)).
Proof.
  induction 1 as [|b rest Hb Hnd IH]; intros j c i dm Hlen Hj; [done|].
  destruct j as [|j]; simpl in *.
  - injection Hj as ->.
    rewrite fill_decodeMap_other by assumption.
    rewrite Z.add_0_r. apply list_lookup_insert_eq.
    rewrite Hlen. apply b2n_lt.
  - rewrite (IH j c (i + 1) _); [|by rewrite length_insert|assumption].
    f_equal. f_equal. lia.
Qed.

(** ** Digit strings *)

Lemma to_digits_turn (x : Z) :
  to_digits x = if Z_gt_dec x 0 then x mod 62 :: to_digits (x / 62) else [].
Proof.
  rewrite to_digits_equation_1. unfold to_digits_clause_1.
  destruct (Z_gt_dec x 0); reflexivity.
Qed.

#[global] Opaque to_digits.

Lemma to_digits_nonpos (x : Z) : x <= 0 -> to_digits x = [].
Proof. intros H. rewrite to_digits_turn. destruct (Z_gt_dec x 0); [lia|reflexivity]. Qed.

Lemma to_digits_pos (x : Z) :
  0 < x -> to_digits x = x mod 62 :: to_digits (x / 62).
Proof. intros H. rewrite to_digits_turn. destruct (Z_gt_dec x 0); [reflexivity|lia]. Qed.

Lemma div62_lt (x : Z) : 0 < x -> 0 <= x / 62 < x.
Proof.
  intros H. split; [apply Z.div_pos; lia | apply Z.div_lt; lia].
Qed.

Lemma to_digits_is_digit (x : Z) : Forall is_digit (to_digits x).
Proof.
  destruct (Z_le_gt_dec x 0) as [Hle|Hgt].
  { rewrite to_digits_nonpos by assumption. constructor. }
  assert (H0 : 0 <= x) by lia. revert Hgt. pattern x.
  apply Z_lt_induction; [clear x H0|assumption].
  intros x IH Hx. rewrite to_digits_pos by lia. constructor.
  - unfold is_digit. apply Z.mod_pos_bound. lia.
  - destruct (Z_le_gt_dec (x / 62) 0) as [Hle|Hgt].
    + rewrite to_digits_nonpos by assumption. constructor.
    + apply IH; [|lia]. pose proof (div62_lt x). lia.
Qed.

Lemma to_digits_last (x : Z) : last (to_digits x) <> Some 0.
Proof.
  destruct (Z_le_gt_dec x 0) as [Hle|Hgt].
  { rewrite to_digits_nonpos by assumption. discriminate. }
  assert (H0 : 0 <= x) by lia. revert Hgt. pattern x.
  apply Z_lt_induction; [clear x H0|assumption].
  intros x IH Hx. rewrite to_digits_pos by lia.
  destruct (Z_le_gt_dec (x / 62) 0) as [Hle|Hgt].
  - rewrite (to_digits_nonpos (x / 62)) by assumption. simpl.
    intros [= Hm]. pose proof (Z.div_mod x 62 ltac:(lia)).
    pose proof (div62_lt x). lia.
  - pose proof (div62_lt x).
    specialize (IH (x / 62) ltac:(lia) Hgt).
    destruct (to_digits (x / 62)) as [|d ds] eqn:E; [|exact IH].
    rewrite to_digits_pos in E by lia. discriminate.
Qed.

Lemma from_digits_app (a b : list Z) (acc : Z) :
  from_digits (a ++ b) acc = from_digits b (from_digits a acc).
Proof. unfold from_digits. apply fold_left_app. Qed.

Lemma from_digits_to_digits (x : Z) :
  0 <= x -> from_digits (reverse (to_digits x)) 0 = x.
Proof.
  intros H0. generalize H0. pattern x.
  apply Z_lt_induction; [clear x H0|assumption].
  intros x IH Hx.
  destruct (Z_le_gt_dec x 0) as [Hle|Hgt].
  - rewrite to_digits_nonpos by assumption. simpl. lia.
  - rewrite to_digits_pos by lia. rewrite reverse_cons, from_digits_app.
    pose proof (div62_lt x). rewrite IH by lia. simpl.
    pose proof (Z.div_mod x 62 ltac:(lia)). lia.
Qed.

Lemma from_digits_zeros (k : nat) (ds : list Z) :
  from_digits (replicate k 0 ++ ds) 0 = from_digits ds 0.
Proof.
  induction k as [|k IH]; [reflexivity|]. simpl. exact IH.
Qed.

Lemma to_digits_chunk (k : nat) :
  forall q r, 0 < q -> 0 <= r < 62 ^ Z.of_nat k ->
    to_digits (q * 62 ^ Z.of_nat k + r) = fixed_digits k r ++ to_digits q.
Proof.
  induction k as [|k IH]; intros q r Hq Hr.
  - change (62 ^ Z.of_nat 0) with 1 in *.
    replace (q * 1 + r) with q by lia. reflexivity.
  - rewrite Nat2Z.inj_succ, Z.pow_succ_r in * by lia.
    assert (Hp : 0 < 62 ^ Z.of_nat k) by (apply Z.pow_pos_nonneg; lia).
    rewrite to_digits_pos by nia. simpl.
    replace (q * (62 * 62 ^ Z.of_nat k) + r)
      with (r + (q * 62 ^ Z.of_nat k) * 62) by lia.
    rewrite Z.mod_add, Z.div_add by lia. f_equal.
    rewrite Z.add_comm. apply IH; [assumption|].
    split; [apply Z.div_pos; lia | apply Z.div_lt_upper_bound; lia].
Qed.

Lemma to_digits_length (k : nat) :
  forall x, x < 62 ^ Z.of_nat k -> (length (to_digits x) <= k)%nat.
Proof.
  induction k as [|k IH]; intros x Hx.
  - rewrite to_digits_nonpos; simpl in *; lia.
  - destruct (Z_le_gt_dec x 0) as [Hle|Hgt].
    + rewrite to_digits_nonpos by assumption. simpl. lia.
    + rewrite to_digits_pos by lia. simpl.
      rewrite Nat2Z.inj_succ, Z.pow_succ_r in Hx by lia.
      specialize (IH (x / 62)). 
      assert (x / 62 < 62 ^ Z.of_nat k) by (apply Z.div_lt_upper_bound; lia).
      lia.
Qed.

(** ** What the encoders compute *)

Lemma to_int64_small (z : Z) : 0 <= z < 2 ^ 63 -> to_int64 z = z.
Proof. intros H. unfold to_int64. rewrite Z.mod_small; lia. Qed.

Lemma chunk_remainder_bound (x : Z) : 0 <= x mod bigRadix10 < 2 ^ 63.
Proof.
  pose proof (Z.mod_pos_bound x bigRadix10 ltac:(pose proof bigRadix10_ge2; lia)) as H.
  assert (bigRadix10 < 2 ^ 63) by (vm_compute; reflexivity). lia.
Qed.

Lemma bigRadix10_pow : bigRadix10 = 62 ^ Z.of_nat 10.
Proof. vm_compute. reflexivity. Qed.

Lemma encode_leading_zeros_spec (e : Encoding) (b answer : list byte) :
  encode_leading_zeros e b answer =
  answer ++ replicate (leading_zeros b) (alphabetIdx0 e).
Proof.
  revert answer. induction b as [|c rest IH]; intros answer; simpl.
  - by rewrite app_nil_r.
  - destruct (b2z c =? 0) eqn:E; simpl.
    + rewrite IH, <- app_assoc. reflexivity.
    + by rewrite app_nil_r.
Qed.

Lemma reverse_loop_spec (k : nat) :
  forall pre mid post : list byte,
    length pre = length post ->
    (length mid = 2 * k \/ length mid = 2 * k + 1)%nat ->
    reverse_loop k (Z.of_nat (length pre)) (pre ++ mid ++ post) =
    Ok (pre ++ reverse mid ++ post).
Proof.
  induction k as [|k IH]; intros pre mid post Hpp Hmid.
  - destruct mid as [|a [|a' mid]]; simpl in Hmid; try lia; reflexivity.
  - destruct mid as [|a mid]; [simpl in Hmid; lia|].
    destruct (decide (mid = [])) as [->|Hne]; [simpl in Hmid; lia|].
    destruct (exists_last Hne) as (mid' & b & ->).
    rewrite length_cons, length_app in Hmid. simpl in Hmid.
    cbn [reverse_loop].
    set (cur := pre ++ (a :: mid' ++ [b]) ++ post).
    assert (Hcur : length cur = (length pre + (length mid' + 2) + length post)%nat).
    { unfold cur. rewrite !length_app. simpl. rewrite length_app. simpl. lia. }
    assert (Hlo : cur !! length pre = Some a).
    { unfold cur. simpl. by rewrite list_lookup_middle. }
    assert (Hhi : cur !! (length pre + S (length mid'))%nat = Some b).
    { unfold cur. rewrite lookup_app_r by lia.
      replace (length pre + S (length mid') - length pre)%nat
        with (S (length mid')) by lia.
      simpl. rewrite <- app_assoc. simpl. by rewrite list_lookup_middle. }
    replace (Z.of_nat (length cur) - 1 - Z.of_nat (length pre))
      with (Z.of_nat (length pre + S (length mid'))) by lia.
    rewrite (index_Ok cur (Z.of_nat (length pre + S (length mid'))) b);
      [|lia|rewrite Nat2Z.id; exact Hhi].
    cbn [mbind result_bind].
    rewrite (index_Ok cur (Z.of_nat (length pre)) a);
      [|lia|rewrite Nat2Z.id; exact Hlo].
    cbn [mbind result_bind].
    rewrite store_Ok by lia. cbn [mbind result_bind].
    rewrite store_Ok by (rewrite length_insert; lia). cbn [mbind result_bind].
    rewrite !Nat2Z.id.
    assert (Hnew : <[(length pre + S (length mid'))%nat := a]> (<[length pre := b]> cur)
                   = (pre ++ [b]) ++ mid' ++ (a :: post)).
    { unfold cur. rewrite insert_app_r_alt by lia. rewrite Nat.sub_diag. simpl.
      rewrite insert_app_r_alt by lia.
      replace (length pre + S (length mid') - length pre)%nat
        with (S (length mid')) by lia.
      simpl. rewrite <- !app_assoc. simpl.
      rewrite (insert_app_r_alt mid') by lia. rewrite Nat.sub_diag. simpl.
      reflexivity. }
    rewrite Hnew.
    replace (Z.of_nat (length pre) + 1) with (Z.of_nat (length (pre ++ [b])))
      by (rewrite length_app; simpl; lia).
    rewrite IH.
    + rewrite reverse_cons, reverse_snoc. rewrite <- !app_assoc. reflexivity.
    + rewrite length_app. simpl. lia.
    + lia.
Qed.

Lemma reverse_in_place_spec (answer : list byte) :
  reverse_in_place answer = Ok (reverse answer).
Proof.
  unfold reverse_in_place.
  pose proof (reverse_loop_spec (Z.to_nat (Z.quot (Z.of_nat (length answer)) 2))
                [] answer []) as H.
  simpl in H. rewrite !app_nil_r in H. apply H; [reflexivity|].
  rewrite Z.quot_div_nonneg by lia.
  pose proof (Z.div_mod (Z.of_nat (length answer)) 2 ltac:(lia)).
  pose proof (Z.mod_pos_bound (Z.of_nat (length answer)) 2 ltac:(lia)).
  assert (0 <= Z.of_nat (length answer) / 2) by (apply Z.div_pos; lia).
  lia.
Qed.

Lemma SetBytes_from (b : list byte) (acc : Z) :
  fold_left (fun a c => a * 256 + b2z c) b acc =
  acc * 256 ^ Z.of_nat (length b) + SetBytes b.
Proof.
  unfold SetBytes. revert acc.
  induction b as [|c rest IH]; intros acc; simpl fold_left.
  - simpl. lia.
  - rewrite IH, (IH (0 * 256 + b2z c)).
    rewrite length_cons, Nat2Z.inj_succ, Z.pow_succ_r by lia. lia.
Qed.

Lemma SetBytes_cons (c : byte) (b : list byte) :
  SetBytes (c :: b) = b2z c * 256 ^ Z.of_nat (length b) + SetBytes b.
Proof. unfold SetBytes at 1. simpl. apply SetBytes_from. Qed.

Lemma SetBytes_snoc (b : list byte) (c : byte) :
  SetBytes (b ++ [c]) = SetBytes b * 256 + b2z c.
Proof. unfold SetBytes. rewrite fold_left_app. reflexivity. Qed.

Lemma SetBytes_nonneg (b : list byte) : 0 <= SetBytes b.
Proof.
  induction b as [|c rest IH] using rev_ind; [reflexivity|].
  rewrite SetBytes_snoc. pose proof (b2z_range c). lia.
Qed.

Section Encoders.
Variable e : Encoding.
Hypothesis alphabet_length : length (alphabet e) = 62%nat.

Lemma index_sym (d : Z) : is_digit d -> index (alphabet e) d = Ok (sym e d).
Proof.
  intros Hd. unfold is_digit in Hd.
  destruct (lookup_lt_is_Some_2 (alphabet e) (Z.to_nat d)) as [c Hc]; [lia|].
  unfold sym. rewrite Hc. apply index_Ok; [lia|assumption].
Qed.

Lemma encode_last_chunk_spec (m : Z) :
  0 <= m ->
  forall answer,
    encode_last_chunk e m answer = Ok (answer ++ (sym e <$> to_digits m)).
Proof.
  intros H0. generalize H0. pattern m.
  apply Z_lt_induction; [clear m H0|assumption].
  intros m IH Hm answer. rewrite encode_last_chunk_turn.
  destruct (Z_gt_dec m 0) as [Hgt|Hle].
  - rewrite Z.rem_mod_nonneg, Z.quot_div_nonneg by lia.
    rewrite index_sym by (apply Z.mod_pos_bound; lia).
    cbn [mbind result_bind].
    pose proof (div62_lt m ltac:(lia)).
    rewrite IH by lia. rewrite (to_digits_pos m) by lia.
    simpl. rewrite <- app_assoc. reflexivity.
  - rewrite to_digits_nonpos by lia. simpl. by rewrite app_nil_r.
Qed.

Lemma encode_full_chunk_spec (k : nat) :
  forall m answer, 0 <= m ->
    encode_full_chunk e k m answer = Ok (answer ++ (sym e <$> fixed_digits k m)).
Proof.
  induction k as [|k IH]; intros m answer Hm; simpl.
  - by rewrite app_nil_r.
  - rewrite Z.rem_mod_nonneg, Z.quot_div_nonneg by lia.
    rewrite index_sym by (apply Z.mod_pos_bound; lia).
    cbn [mbind result_bind].
    rewrite IH by (apply Z.div_pos; lia).
    rewrite <- app_assoc. reflexivity.
Qed.

Lemma encode_chunks_spec (x : Z) :
  0 <= x ->
  forall answer,
    encode_chunks e x answer = Ok (answer ++ (sym e <$> to_digits x)).
Proof.
  intros H0. generalize H0. pattern x.
  apply Z_lt_induction; [clear x H0|assumption].
  intros x IH Hx answer. rewrite encode_chunks_turn.
  destruct (Z_gt_dec x 0) as [Hgt|Hle].
  - pose proof bigRadix10_ge2 as HR.
    pose proof (chunk_remainder_bound x) as Hr.
    pose proof (Z.div_mod x bigRadix10 ltac:(lia)) as Hdm.
    assert (Hq : 0 <= x / bigRadix10) by (apply Z.div_pos; lia).
    assert (Hqx : x / bigRadix10 < x) by (apply Z.div_lt; lia).
    unfold encode_chunk. rewrite to_int64_small by assumption.
    destruct (x / bigRadix10 =? 0) eqn:Eq.
    + apply Z.eqb_eq in Eq. rewrite Eq in *.
      rewrite encode_last_chunk_spec by lia. cbn [mbind result_bind].
      rewrite encode_chunks_turn. simpl.
      replace (x mod bigRadix10) with x by lia. reflexivity.
    + apply Z.eqb_neq in Eq.
      rewrite encode_full_chunk_spec by lia. cbn [mbind result_bind].
      rewrite IH by lia. rewrite <- app_assoc, <- fmap_app.
      do 3 f_equal.
      pose proof (Z.mod_pos_bound x bigRadix10 ltac:(lia)) as Hm.
      rewrite <- to_digits_chunk;
        [f_equal; rewrite <- bigRadix10_pow; lia
        |lia
        |rewrite <- bigRadix10_pow; lia].
  - rewrite to_digits_nonpos by lia. simpl. by rewrite app_nil_r.
Qed.

(** [EncodeToString] writes one zero symbol per leading zero byte and
    then the digits of the big-endian value, most significant first. *)
Lemma EncodeToString_spec (b : list byte) :
  EncodeToString e b =
  Ok (replicate (leading_zeros b) (alphabetIdx0 e)
      ++ (sym e <$> reverse (to_digits (SetBytes b)))).
Proof.
  unfold EncodeToString.
  rewrite encode_chunks_spec by apply SetBytes_nonneg.
  cbn [mbind result_bind].
  rewrite encode_leading_zeros_spec, reverse_in_place_spec. simpl.
  rewrite reverse_app, reverse_replicate, fmap_reverse. reflexivity.
Qed.

Lemma EncodeUint64_loop_spec (n : Z) :
  0 <= n ->
  forall (i : nat) (answer : list byte),
    (length (to_digits n) <= i <= length answer)%nat ->
    EncodeUint64_loop e n (Z.of_nat i) answer =
    Ok (Z.of_nat (i - length (to_digits n)),
        take (i - length (to_digits n)) answer
        ++ (sym e <$> reverse (to_digits n)) ++ drop i answer).
Proof.
  intros H0. generalize H0. pattern n.
  apply Z_lt_induction; [clear n H0|assumption].
  intros n IH Hn i answer Hi. rewrite EncodeUint64_loop_turn.
  destruct (Z_gt_dec n 0) as [Hgt|Hle].
  - unfold radix. rewrite (to_digits_pos n) in * by lia.
    simpl length in *.
    rewrite index_sym by (apply Z.mod_pos_bound; lia).
    cbn [mbind result_bind].
    rewrite store_Ok by lia. cbn [mbind result_bind].
    replace (Z.of_nat i - 1) with (Z.of_nat (i - 1)) by lia.
    rewrite Nat2Z.id.
    pose proof (div62_lt n ltac:(lia)).
    rewrite IH; [|lia|lia|rewrite length_insert; lia].
    destruct (lookup_lt_is_Some_2 answer (i - 1)) as [old Hold]; [lia|].
    f_equal. f_equal; [f_equal; lia|].
    rewrite take_insert_ge by lia.
    rewrite drop_insert_ge, Nat.sub_diag by lia.
    rewrite (drop_S answer old (i - 1)) by assumption.
    replace (S (i - 1)) with i by lia. simpl.
    rewrite reverse_cons, fmap_app, <- app_assoc. simpl.
    do 2 f_equal. lia.
  - rewrite to_digits_nonpos by lia. simpl.
    rewrite Nat.sub_0_r, take_drop. reflexivity.
Qed.

(** [EncodeUint64] writes the digits of [n], most significant first,
    and the zero symbol converted to a string for [0]. *)
Lemma EncodeUint64_spec (n : Z) :
  0 <= n < 2 ^ 64 ->
  EncodeUint64 e n =
  Ok (if n =? 0 then string_of_byte (alphabetIdx0 e)
      else sym e <$> reverse (to_digits n)).
Proof.
  intros Hn. unfold EncodeUint64.
  destruct (n =? 0) eqn:E; [reflexivity|].
  assert (Hlen : (length (to_digits n) <= 11)%nat).
  { apply to_digits_length.
    assert (2 ^ 64 < 62 ^ Z.of_nat 11) by (vm_compute; reflexivity). lia. }
  change 12 with (Z.of_nat 12).
  rewrite EncodeUint64_loop_spec;
    [|lia|rewrite length_replicate; lia].
  cbn [mbind result_bind fst snd].
  rewrite drop_replicate. simpl replicate at 2. rewrite app_nil_r.
  rewrite slice_from_Ok, Nat2Z.id;
    [|rewrite length_app, length_take, length_replicate; lia].
  rewrite drop_app_length'; [reflexivity|].
  rewrite length_take, length_replicate. lia.
Qed.
End Encoders.

(** An ASCII byte converted to a string is that byte. *)
Lemma string_of_byte_ascii (b : byte) : b2z b < 128 -> string_of_byte b = [b].
Proof.
  intros Hb. unfold string_of_byte.
  destruct (Z.ltb_spec (b2z b) 128); [reflexivity|lia].
Qed.

(** ** What [New] builds *)

Lemma New_alphabet_length (alpha : list byte) (e : Encoding) :
  New alpha = Ok e -> length (alphabet e) = 62%nat.
Proof.
  unfold New. destruct (index alpha 0) as [idx0|]; [|discriminate].
  cbn [mbind result_bind]. intros [= <-]. apply length_copy62.
Qed.

Lemma New_full (alpha : list byte) :
  length alpha = 62%nat ->
  exists idx0,
    alpha !! 0%nat = Some idx0 /\
    New alpha = Ok {| alphabet := alpha;
                      decodeMap := fill_decodeMap 0 alpha (replicate 256 xff);
                      alphabetIdx0 := idx0 |}.
Proof.
  intros Hlen.
  destruct (lookup_lt_is_Some_2 alpha 0) as [idx0 H0]; [lia|].
  exists idx0. split; [assumption|].
  unfold New. rewrite (index_Ok alpha 0 idx0) by (simpl; first [lia|assumption]).
  cbn [mbind result_bind]. rewrite copy62_full by assumption. reflexivity.
Qed.

Lemma blank_decodeMap (c : byte) : replicate 256 xff !! b2n c = Some xff.
Proof. apply lookup_replicate_2, b2n_lt. Qed.

Lemma New_table_ok (alpha : list byte) (e : Encoding) :
  length alpha = 62%nat -> NoDup alpha -> New alpha = Ok e ->
  table_ok e /\ alphabet e = alpha.
Proof.
  intros Hlen Hnd HNew.
  destruct (New_full alpha Hlen) as (idx0 & H0 & HN).
  rewrite HN in HNew. injection HNew as <-.
  split; [|reflexivity].
  constructor; cbn [alphabet decodeMap alphabetIdx0].
  - assumption.
  - rewrite length_fill_decodeMap. reflexivity.
  - assumption.
  - assumption.
  - intros i c Hi.
    rewrite (fill_decodeMap_at alpha Hnd i c 0);
      [reflexivity|reflexivity|assumption].
  - intros c Hc. rewrite fill_decodeMap_other by assumption.
    apply blank_decodeMap.
Qed.

(** ** What the fixed-width decoder computes *)

Lemma from_digits_ge (ds : list Z) :
  Forall is_digit ds -> forall acc, 0 <= acc -> acc <= from_digits ds acc.
Proof.
  unfold from_digits.
  induction 1 as [|d ds Hd _ IH]; intros acc Hacc; simpl; [lia|].
  unfold is_digit in Hd. specialize (IH (acc * 62 + d)). lia.
Qed.

Section Decoders.
Variable e : Encoding.
Hypothesis table : table_ok e.

Lemma sym_lookup (d : Z) :
  is_digit d -> alphabet e !! Z.to_nat d = Some (sym e d).
Proof.
  intros Hd. unfold is_digit in Hd. unfold sym.
  destruct (lookup_lt_is_Some_2 (alphabet e) (Z.to_nat d)) as [c Hc].
  - rewrite (ok_alphabet_length e table). lia.
  - rewrite Hc. reflexivity.
Qed.

Lemma sym_zero : sym e 0 = alphabetIdx0 e.
Proof.
  unfold sym. change (Z.to_nat 0) with 0%nat. by rewrite (ok_idx0 e table).
Qed.

Lemma sym_inj (a b : Z) : is_digit a -> is_digit b -> sym e a = sym e b -> a = b.
Proof.
  intros Ha Hb Heq.
  pose proof (sym_lookup a Ha) as H1. pose proof (sym_lookup b Hb) as H2.
  rewrite Heq in H1.
  pose proof (NoDup_lookup _ _ _ _ (ok_distinct e table) H1 H2).
  unfold is_digit in *. lia.
Qed.

Lemma sym_head (ds : list Z) :
  Forall is_digit ds -> head ds <> Some 0 ->
  head (sym e <$> ds) <> Some (alphabetIdx0 e).
Proof.
  intros Hds Hhead. destruct ds as [|d ds]; [done|].
  rewrite fmap_cons. simpl. intros [= Hd]. apply Hhead. simpl. f_equal.
  apply Forall_cons in Hds as [Hd0 _].
  apply sym_inj; [assumption|unfold is_digit; lia|].
  by rewrite sym_zero.
Qed.

Lemma decodeMap_sym (d : Z) :
  is_digit d -> index (decodeMap e) (b2z (sym e d)) = Ok (z2b d).
Proof.
  intros Hd. pose proof (b2z_range (sym e d)).
  apply index_Ok; [lia|].
  rewrite <- b2n_b2z.
  rewrite (ok_inverse e table _ _ (sym_lookup d Hd)).
  unfold is_digit in Hd. rewrite Z2Nat.id by lia. reflexivity.
Qed.

Lemma DecodeToUint64_loop_spec (src : list byte) (ds : list Z) :
  Forall is_digit ds ->
  forall acc, 0 <= acc -> from_digits ds acc < 2 ^ 64 ->
    DecodeToUint64_loop e src (sym e <$> ds) acc = Ok (from_digits ds acc, None).
Proof.
  induction 1 as [|d ds Hd Hds IH]; intros acc Hacc Hlt; [reflexivity|].
  rewrite fmap_cons. cbn [DecodeToUint64_loop].
  rewrite decodeMap_sym by assumption. cbn [mbind result_bind].
  unfold is_digit in Hd.
  rewrite b2z_z2b by lia.
  destruct (Z.ltb_spec d 0); [lia|].
  change (from_digits (d :: ds) acc) with (from_digits ds (acc * 62 + d)) in *.
  pose proof (from_digits_ge ds Hds (acc * 62 + d) ltac:(lia)).
  unfold wrap64, radix. rewrite Z.mod_small by lia.
  destruct (Z.ltb_spec (acc * 62 + d) acc); [lia|].
  apply IH; lia.
Qed.
End Decoders.

(** ** [SetBytes] and [Bytes] *)

Lemma Bytes_aux_app (x : Z) :
  0 <= x -> forall acc, Bytes_aux x acc = Bytes x ++ acc.
Proof.
  intros H0. generalize H0. pattern x.
  apply Z_lt_induction; [clear x H0|assumption].
  intros x IH Hx acc. unfold Bytes.
  rewrite (Bytes_aux_turn x acc), (Bytes_aux_turn x []).
  destruct (Z_gt_dec x 0) as [Hgt|Hle]; [|reflexivity].
  assert (0 <= x / 256 < x).
  { split; [apply Z.div_pos; lia | apply Z.div_lt; lia]. }
  rewrite (IH (x / 256)) by lia.
  rewrite (IH (x / 256) ltac:(lia) ltac:(lia) [_]).
  rewrite <- app_assoc. reflexivity.
Qed.

Lemma Bytes_zero : Bytes 0 = [].
Proof. unfold Bytes. rewrite Bytes_aux_turn. reflexivity. Qed.

Lemma Bytes_pos (x : Z) :
  0 < x -> Bytes x = Bytes (x / 256) ++ [z2b (x mod 256)].
Proof.
  intros Hx. unfold Bytes at 1. rewrite Bytes_aux_turn.
  destruct (Z_gt_dec x 0); [|lia].
  apply Bytes_aux_app. apply Z.div_pos; lia.
Qed.

(** A byte string without its leading zero bytes. *)
Lemma strip_cons (c : byte) (b : list byte) :
  drop (leading_zeros (c :: b)) (c :: b) =
  if b2z c =? 0 then drop (leading_zeros b) b else c :: b.
Proof. simpl. destruct (b2z c =? 0); reflexivity. Qed.

Lemma strip_snoc (b : list byte) (c : byte) :
  drop (leading_zeros (b ++ [c])) (b ++ [c]) =
  if decide (drop (leading_zeros b) b = [] /\ b2z c = 0) then []
  else drop (leading_zeros b) b ++ [c].
Proof.
  induction b as [|a b IH].
  - simpl. destruct (Z.eqb_spec (b2z c) 0); case_decide; intuition congruence.
  - rewrite <- app_comm_cons, !strip_cons.
    destruct (b2z a =? 0); [exact IH|]. clear IH.
    case_decide as Hz; [destruct Hz as [Hz _]; discriminate Hz|reflexivity].
Qed.

Lemma SetBytes_zero_iff (b : list byte) :
  SetBytes b = 0 <-> drop (leading_zeros b) b = [].
Proof.
  induction b as [|c b IH]; [done|].
  rewrite SetBytes_cons, strip_cons.
  pose proof (b2z_range c). pose proof (SetBytes_nonneg b).
  assert (0 < 256 ^ Z.of_nat (length b)) by (apply Z.pow_pos_nonneg; lia).
  destruct (Z.eqb_spec (b2z c) 0) as [Hc|Hc].
  - rewrite Hc, <- IH. lia.
  - split; [nia|discriminate].
Qed.

Lemma Bytes_SetBytes (b : list byte) :
  Bytes (SetBytes b) = drop (leading_zeros b) b.
Proof.
  induction b as [|c b IH] using rev_ind; [apply Bytes_zero|].
  rewrite strip_snoc, SetBytes_snoc.
  pose proof (b2z_range c). pose proof (SetBytes_nonneg b).
  case_decide as Hz.
  - destruct Hz as [Hb Hc]. apply SetBytes_zero_iff in Hb.
    rewrite Hb, Hc. apply Bytes_zero.
  - assert (0 < SetBytes b * 256 + b2z c).
    { destruct (Z.eq_dec (SetBytes b) 0) as [Hb|Hb];
        [|lia].
      destruct (Z.eq_dec (b2z c) 0) as [Hc|Hc]; [|lia].
      exfalso. apply Hz. split; [by apply SetBytes_zero_iff|assumption]. }
    rewrite Bytes_pos by assumption.
    rewrite Z.add_comm, Z.div_add, Z.mod_add by lia.
    rewrite Z.div_small, Z.mod_small by lia.
    rewrite Z.add_0_l, z2b_b2z, IH. reflexivity.
Qed.

Lemma leading_zeros_take (b : list byte) :
  take (leading_zeros b) b = replicate (leading_zeros b) x00.
Proof.
  induction b as [|c b IH]; [reflexivity|]. simpl.
  destruct (Z.eqb_spec (b2z c) 0) as [Hc|Hc]; [|reflexivity].
  apply b2z_zero_iff in Hc. subst c. simpl. by rewrite IH.
Qed.

Lemma leading_zeros_restore (b : list byte) :
  replicate (leading_zeros b) x00 ++ drop (leading_zeros b) b = b.
Proof. rewrite <- leading_zeros_take. apply take_drop. Qed.

Lemma copy_at_fresh (k : nat) (t : list byte) :
  copy_at (replicate (k + length t) x00) k t = replicate k x00 ++ t.
Proof.
  unfold copy_at. rewrite take_replicate, drop_replicate, length_replicate.
  replace (k `min` (k + length t))%nat with k by lia.
  replace (k + length t - k)%nat with (length t) by lia.
  rewrite Nat.sub_diag. simpl. rewrite app_nil_r.
  rewrite take_ge by lia. reflexivity.
Qed.

(** ** What the arbitrary-precision decoder computes *)

Lemma range_string_ascii (s : list byte) :
  Forall (fun c => b2z c < 128) s -> range_string s = b2z <$> s.
Proof.
  induction 1 as [|c s Hc _ IH]; [reflexivity|].
  cbn [range_string]. rewrite IH.
  destruct (Z.ltb_spec (b2z c) 128); [reflexivity|lia].
Qed.

Lemma from_digits_linear (ds : list Z) :
  forall acc,
    from_digits ds acc = acc * 62 ^ Z.of_nat (length ds) + from_digits ds 0.
Proof.
  unfold from_digits.
  induction ds as [|d ds IH]; intros acc; simpl fold_left.
  - simpl. lia.
  - rewrite IH, (IH (0 * 62 + d)).
    rewrite length_cons, Nat2Z.inj_succ, Z.pow_succ_r by lia. lia.
Qed.

Lemma from_digits_bound (ds : list Z) :
  Forall is_digit ds -> 0 <= from_digits ds 0 < 62 ^ Z.of_nat (length ds).
Proof.
  induction ds as [|d ds IH] using rev_ind; intros Hds.
  - simpl. lia.
  - apply Forall_app in Hds as [Hds Hd]. apply Forall_cons in Hd as [Hd _].
    unfold is_digit in Hd. specialize (IH Hds).
    rewrite from_digits_app, length_app, Nat2Z.inj_add, Z.pow_add_r by lia.
    simpl length. change (62 ^ Z.of_nat 1) with 62.
    change (from_digits [d] (from_digits ds 0)) with (from_digits ds 0 * 62 + d).
    lia.
Qed.

Lemma bigRadix_index (n : nat) :
  (1 <= n <= 10)%nat -> index bigRadix (Z.of_nat n) = Ok (62 ^ Z.of_nat n).
Proof.
  intros Hn.
  do 11 (destruct n as [|n]; [first [lia | vm_compute; reflexivity]|]). lia.
Qed.

Lemma chunk_len_min (t : list byte) :
  chunk_len t = Z.of_nat (10 `min` length t).
Proof. unfold chunk_len. destruct (Z.ltb_spec 10 (Z.of_nat (length t))); lia. Qed.

Lemma count_zero_symbols_prefix (e : Encoding) (k : nat) (rest : list byte) :
  head rest <> Some (alphabetIdx0 e) ->
  count_zero_symbols e (replicate k (alphabetIdx0 e) ++ rest) = k.
Proof.
  intros Hrest. induction k as [|k IH]; simpl.
  - destruct rest as [|c rest]; [reflexivity|]. simpl.
    destruct (Byte.eqb c (alphabetIdx0 e)) eqn:E; [|reflexivity].
    apply Byte.byte_dec_bl in E. subst c. by destruct Hrest.
  - rewrite Byte.byte_dec_lb by reflexivity. simpl. by rewrite IH.
Qed.

Section AsciiDecoders.
Variable e : Encoding.
Hypothesis table : table_ok e.
Hypothesis ascii : Forall (fun c => b2z c < 128) (alphabet e).

Lemma sym_ascii (d : Z) : is_digit d -> b2z (sym e d) < 128.
Proof.
  intros Hd.
  exact (Forall_lookup_1 _ _ _ _ ascii (sym_lookup e table d Hd)).
Qed.

Lemma decode_chunk_spec (ds : list Z) :
  Forall is_digit ds ->
  forall total, 0 <= total -> from_digits ds total < 2 ^ 64 ->
    decode_chunk e (b2z <$> (sym e <$> ds)) total =
    Ok (Some (from_digits ds total)).
Proof.
  induction 1 as [|d ds Hd Hds IH]; intros total Htot Hlt; [reflexivity|].
  rewrite !fmap_cons. cbn [decode_chunk].
  rewrite (decodeMap_sym e table) by assumption. cbn [mbind result_bind].
  unfold is_digit in Hd. rewrite b2z_z2b by lia.
  destruct (Z.eqb_spec d 255); [lia|].
  change (from_digits (d :: ds) total) with (from_digits ds (total * 62 + d)) in *.
  pose proof (from_digits_ge ds Hds (total * 62 + d) ltac:(lia)).
  unfold wrap64. rewrite Z.mod_small by lia.
  apply IH; lia.
Qed.

Lemma decode_step_spec (ds : list Z) (answer : Z) :
  ds <> [] -> Forall is_digit ds ->
  decode_step e (sym e <$> ds) answer =
  Ok (Some (from_digits (take (10 `min` length ds) ds) answer)).
Proof.
  intros Hne Hds. unfold decode_step.
  rewrite chunk_len_min, Nat2Z.id, length_fmap.
  set (k := (10 `min` length ds)%nat).
  assert (Hk : (1 <= k <= 10)%nat).
  { destruct ds; [done|]. unfold k. simpl length. lia. }
  assert (Hlen : length (take k ds) = k) by (rewrite length_take; lia).
  assert (Hd : Forall is_digit (take k ds)) by by apply Forall_take.
  pose proof (from_digits_bound _ Hd) as Hb. rewrite Hlen in Hb.
  assert (62 ^ Z.of_nat k <= 62 ^ 10) by (apply Z.pow_le_mono_r; lia).
  assert (62 ^ 10 < 2 ^ 64) by (vm_compute; reflexivity).
  rewrite <- fmap_take.
  rewrite range_string_ascii.
  2:{ apply Forall_fmap. eapply Forall_impl; [exact Hd|].
      intros d Hdd. by apply sym_ascii. }
  rewrite decode_chunk_spec by first [assumption|lia].
  cbn [mbind result_bind].
  rewrite bigRadix_index by assumption. cbn [mbind result_bind].
  rewrite (from_digits_linear _ answer), Hlen. reflexivity.
Qed.

Lemma decode_chunks_spec (n : nat) :
  forall (ds : list Z) (answer : Z),
    (length ds <= n)%nat -> Forall is_digit ds ->
    decode_chunks e (sym e <$> ds) answer = Ok (Some (from_digits ds answer)).
Proof.
  induction n as [|n IH]; intros ds answer Hlen Hds.
  - destruct ds; [|simpl in Hlen; lia]. by rewrite decode_chunks_turn.
  - destruct ds as [|d ds]; [by rewrite decode_chunks_turn|].
    rewrite decode_chunks_turn, fmap_cons.
    rewrite <- (fmap_cons (sym e) d ds).
    rewrite decode_step_spec by done. cbn [mbind result_bind].
    rewrite chunk_len_min, Nat2Z.id, length_fmap.
    set (k := (10 `min` length (d :: ds))%nat).
    assert (Hk : (1 <= k)%nat) by (unfold k; simpl length; lia).
    rewrite <- fmap_drop.
    rewrite IH; [|rewrite length_drop; simpl in *; lia|by apply Forall_drop].
    rewrite <- from_digits_app, take_drop. reflexivity.
Qed.

(** Decoding [k] zero symbols followed by a digit string that does not
    start with the zero digit. *)
Lemma DecodeString_digits (k : nat) (ds : list Z) :
  Forall is_digit ds -> head ds <> Some 0 ->
  DecodeString e (replicate k (alphabetIdx0 e) ++ (sym e <$> ds)) =
  Ok (replicate k x00 ++ Bytes (from_digits ds 0)).
Proof.
  intros Hds Hhead. unfold DecodeString.
  assert (Hstr : replicate k (alphabetIdx0 e) ++ (sym e <$> ds)
                 = sym e <$> (replicate k 0 ++ ds)).
  { by rewrite fmap_app, fmap_replicate, (sym_zero e table). }
  rewrite Hstr at 1.
  rewrite (decode_chunks_spec (length (replicate k 0 ++ ds))); [|lia|].
  2:{ apply Forall_app. split; [|assumption].
      apply Forall_replicate. unfold is_digit. lia. }
  cbn [mbind result_bind]. rewrite from_digits_zeros.
  rewrite count_zero_symbols_prefix; [by rewrite copy_at_fresh|].
  by apply (sym_head e table).
Qed.

(** The round trip on a well-formed table of ASCII symbols. *)
Lemma DecodeString_EncodeToString_table (b : list byte) :
  EncodeToString e b ≫= DecodeString e = Ok b.
Proof.
  rewrite (EncodeToString_spec e (ok_alphabet_length e table)).
  cbn [mbind result_bind].
  rewrite DecodeString_digits.
  - rewrite from_digits_to_digits by apply SetBytes_nonneg.
    rewrite Bytes_SetBytes. by rewrite leading_zeros_restore.
  - apply Forall_reverse, to_digits_is_digit.
  - rewrite head_reverse. apply to_digits_last.
Qed.
End AsciiDecoders.

(** ** The standard table *)

Lemma StdEncoding_New : New std_alphabet = Ok StdEncoding.
Proof. reflexivity. Qed.

Lemma std_alphabet_length : length std_alphabet = 62%nat.
Proof. reflexivity. Qed.

Lemma std_alphabet_NoDup : NoDup std_alphabet.
Proof. apply (bool_decide_unpack _). vm_compute. exact I. Qed.

Lemma std_alphabet_ascii : Forall (fun c => b2z c < 128) std_alphabet.
Proof. repeat (apply Forall_cons_2; [reflexivity|]). apply Forall_nil_2. Qed.

Lemma StdEncoding_table_ok : table_ok StdEncoding.
Proof.
  apply (New_table_ok std_alphabet);
    [apply std_alphabet_length|apply std_alphabet_NoDup|apply StdEncoding_New].
Qed.

Lemma StdEncoding_ascii : Forall (fun c => b2z c < 128) (alphabet StdEncoding).
Proof. exact std_alphabet_ascii. Qed.

(** ** Minimal big-endian bytes *)

Lemma leading_zeros_le (b : list byte) : (leading_zeros b <= length b)%nat.
Proof.
  induction b as [|c b IH]; simpl; [lia|].
  destruct (b2z c =? 0); lia.
Qed.

Lemma leading_zeros_prefix (k : nat) (tl : list byte) :
  head tl <> Some x00 -> leading_zeros (replicate k x00 ++ tl) = k.
Proof.
  intros Htl. induction k as [|k IH]; simpl; [|by rewrite IH].
  destruct tl as [|c tl]; [reflexivity|]. simpl.
  destruct (Z.eqb_spec (b2z c) 0) as [Hc|Hc]; [|reflexivity].
  apply b2z_zero_iff in Hc. subst c. by destruct Htl.
Qed.

Lemma SetBytes_Bytes (x : Z) : 0 <= x -> SetBytes (Bytes x) = x.
Proof.
  intros H0. generalize H0. pattern x.
  apply Z_lt_induction; [clear x H0|assumption].
  intros x IH Hx. destruct (Z.eq_dec x 0) as [->|Hne].
  - by rewrite Bytes_zero.
  - rewrite Bytes_pos, SetBytes_snoc, b2z_z2b_mod, Z.mod_mod by lia.
    assert (0 <= x / 256 < x).
    { split; [apply Z.div_pos; lia | apply Z.div_lt; lia]. }
    rewrite IH by lia. pose proof (Z.div_mod x 256 ltac:(lia)). lia.
Qed.

Lemma leading_zeros_Bytes (x : Z) : leading_zeros (Bytes x) = 0%nat.
Proof.
  destruct (Z_le_gt_dec x 0) as [Hle|Hgt].
  - unfold Bytes. rewrite Bytes_aux_turn.
    destruct (Z_gt_dec x 0); [lia|reflexivity].
  - pose proof (Bytes_SetBytes (Bytes x)) as H.
    rewrite SetBytes_Bytes in H by lia.
    pose proof (leading_zeros_le (Bytes x)).
    apply (f_equal length) in H. rewrite length_drop in H. lia.
Qed.

Lemma SetBytes_PutUint64 (n : Z) : 0 <= n < 2 ^ 64 -> SetBytes (PutUint64 n) = n.
Proof.
  intros Hn. unfold PutUint64, SetBytes. simpl fold_left.
  rewrite !b2z_z2b_mod.
  assert (Hs : forall j, 0 <= j -> Z.shiftr n (j + 8) = Z.shiftr n j / 256).
  { intros j Hj. rewrite <- Z.shiftr_shiftr by lia.
    by rewrite (Z.shiftr_div_pow2 _ 8) by lia. }
  pose proof (Hs 0 ltac:(lia)) as H8. rewrite Z.shiftr_0_r in H8.
  pose proof (Hs 8 ltac:(lia)) as H16.
  pose proof (Hs 16 ltac:(lia)) as H24.
  pose proof (Hs 24 ltac:(lia)) as H32.
  pose proof (Hs 32 ltac:(lia)) as H40.
  pose proof (Hs 40 ltac:(lia)) as H48.
  pose proof (Hs 48 ltac:(lia)) as H56.
  change (0 + 8) with 8 in H8. change (8 + 8) with 16 in H16.
  change (16 + 8) with 24 in H24. change (24 + 8) with 32 in H32.
  change (32 + 8) with 40 in H40. change (40 + 8) with 48 in H48.
  change (48 + 8) with 56 in H56.
  assert (H64 : Z.shiftr n 56 / 256 = 0).
  { rewrite Z.shiftr_div_pow2, Z.div_div by lia.
    apply Z.div_small. change (2 ^ 56 * 256) with (2 ^ 64). lia. }
  pose proof (Z.div_mod n 256 ltac:(lia)).
  pose proof (Z.div_mod (Z.shiftr n 8) 256 ltac:(lia)).
  pose proof (Z.div_mod (Z.shiftr n 16) 256 ltac:(lia)).
  pose proof (Z.div_mod (Z.shiftr n 24) 256 ltac:(lia)).
  pose proof (Z.div_mod (Z.shiftr n 32) 256 ltac:(lia)).
  pose proof (Z.div_mod (Z.shiftr n 40) 256 ltac:(lia)).
  pose proof (Z.div_mod (Z.shiftr n 48) 256 ltac:(lia)).
  pose proof (Z.div_mod (Z.shiftr n 56) 256 ltac:(lia)).
  lia.
Qed.

Lemma first_nonzero_suffix_spec (b : list byte) :
  first_nonzero_suffix b =
  match drop (leading_zeros b) b with
  | [] => None
  | r => Some r
  end.
Proof.
  induction b as [|c b IH]; [reflexivity|].
  rewrite strip_cons. simpl. destruct (b2z c =? 0); [exact IH|reflexivity].
Qed.

Lemma marshallUint64_minimal (n : Z) :
  0 <= n < 2 ^ 64 -> marshallUint64 n = minimal_big_endian n.
Proof.
  intros Hn. unfold marshallUint64, minimal_big_endian, removeLeadingZeros.
  destruct (Z.eqb_spec n 0) as [->|Hne]; [reflexivity|].
  rewrite first_nonzero_suffix_spec, <- Bytes_SetBytes.
  rewrite SetBytes_PutUint64 by assumption.
  rewrite Bytes_pos by lia.
  destruct (Bytes (n / 256)); reflexivity.
Qed.

Lemma DecodeToUint64_loop_no_InvalidCharacter (e : Encoding) (src rest : list byte) :
  forall (n v : Z) (c : byte) (s : list byte),
    DecodeToUint64_loop e src rest n <> Ok (v, Some (InvalidCharacter c s)).
Proof.
  induction rest as [|c0 rest IH]; intros n v c s; simpl; [discriminate|].
  destruct (index (decodeMap e) (b2z c0)) as [i|]; [|discriminate].
  cbn [mbind result_bind]. pose proof (b2z_range i).
  destruct (Z.ltb_spec (b2z i) 0); [lia|].
  destruct (wrap64 (n * radix + b2z i) <? n); [discriminate|apply IH].
Qed.

(** ** Invalid symbols in ASCII strings *)

Section InvalidSymbols.
Variable e : Encoding.
Hypothesis table : table_ok e.

Lemma decodeMap_member (c : byte) :
  c ∈ alphabet e ->
  exists d, is_digit d /\ index (decodeMap e) (b2z c) = Ok (z2b d).
Proof.
  intros Hc. apply list_elem_of_lookup in Hc as [i Hi].
  pose proof (lookup_lt_Some _ _ _ Hi) as Hlt.
  rewrite (ok_alphabet_length e table) in Hlt.
  exists (Z.of_nat i). split; [unfold is_digit; lia|].
  pose proof (b2z_range c). apply index_Ok; [lia|].
  rewrite <- b2n_b2z. by apply (ok_inverse e table).
Qed.

Lemma decodeMap_stranger (c : byte) :
  c ∉ alphabet e -> index (decodeMap e) (b2z c) = Ok xff.
Proof.
  intros Hc. pose proof (b2z_range c). apply index_Ok; [lia|].
  rewrite <- b2n_b2z. by apply (ok_invalid e table).
Qed.

Lemma decode_chunk_ascii (t : list byte) :
  forall total,
    exists r, decode_chunk e (b2z <$> t) total = Ok r /\
              (r = None <-> Exists (fun c => c ∉ alphabet e) t).
Proof.
  induction t as [|c t IH]; intros total.
  - exists (Some total). split; [reflexivity|].
    split; [discriminate|]. intros H. inversion H.
  - rewrite fmap_cons. cbn [decode_chunk].
    destruct (decide (c ∈ alphabet e)) as [Hin|Hout].
    + destruct (decodeMap_member c Hin) as (d & Hd & Hidx).
      rewrite Hidx. cbn [mbind result_bind].
      unfold is_digit in Hd. rewrite b2z_z2b by lia.
      destruct (Z.eqb_spec d 255); [lia|].
      destruct (IH (wrap64 (total * 62 + d))) as (r & Hr & Hiff).
      exists r. split; [exact Hr|]. rewrite Hiff, Exists_cons. tauto.
    + rewrite (decodeMap_stranger c Hout). cbn [mbind result_bind].
      exists None. split; [reflexivity|].
      split; [intros _; by apply Exists_cons_hd|reflexivity].
Qed.

Lemma decode_step_ascii (t : list byte) (answer : Z) :
  t <> [] -> Forall (fun c => b2z c < 128) t ->
  exists r, decode_step e t answer = Ok r /\
            (r = None <->
             Exists (fun c => c ∉ alphabet e) (take (10 `min` length t) t)).
Proof.
  intros Hne Hascii. unfold decode_step.
  rewrite chunk_len_min, Nat2Z.id.
  set (k := (10 `min` length t)%nat).
  assert (Hk : (1 <= k <= 10)%nat).
  { destruct t; [done|]. unfold k. simpl length. lia. }
  rewrite range_string_ascii by by apply Forall_take.
  destruct (decode_chunk_ascii (take k t) 0) as (r & Hr & Hiff).
  rewrite Hr. cbn [mbind result_bind].
  destruct r as [total|].
  - rewrite bigRadix_index by assumption. cbn [mbind result_bind].
    eexists. split; [reflexivity|]. rewrite <- Hiff. split; discriminate.
  - exists None. split; [reflexivity|]. exact Hiff.
Qed.

Lemma decode_chunks_ascii (n : nat) :
  forall (t : list byte) (answer : Z),
    (length t <= n)%nat -> Forall (fun c => b2z c < 128) t ->
    exists r, decode_chunks e t answer = Ok r /\
              (r = None <-> Exists (fun c => c ∉ alphabet e) t).
Proof.
  induction n as [|n IH]; intros t answer Hlen Hascii.
  - destruct t; [|simpl in Hlen; lia]. rewrite decode_chunks_turn.
    eexists. split; [reflexivity|]. split; [discriminate|].
    intros H. inversion H.
  - destruct t as [|c t].
    { rewrite decode_chunks_turn. eexists. split; [reflexivity|].
      split; [discriminate|]. intros H. inversion H. }
    rewrite decode_chunks_turn.
    destruct (decode_step_ascii (c :: t) answer ltac:(done) Hascii)
      as (r1 & Hr1 & Hiff1).
    rewrite Hr1. cbn [mbind result_bind].
    rewrite chunk_len_min, Nat2Z.id.
    set (k := (10 `min` length (c :: t))%nat) in *.
    assert (Hk : (1 <= k)%nat) by (unfold k; simpl length; lia).
    assert (Hsplit : Exists (fun c => c ∉ alphabet e) (c :: t) <->
                     Exists (fun c => c ∉ alphabet e) (take k (c :: t)) \/
                     Exists (fun c => c ∉ alphabet e) (drop k (c :: t))).
    { by rewrite <- Exists_app, take_drop. }
    destruct r1 as [answer'|].
    + destruct (IH (drop k (c :: t)) answer') as (r & Hr & Hiff).
      { rewrite length_drop. simpl in *. lia. }
      { by apply Forall_drop. }
      exists r. split; [exact Hr|]. rewrite Hiff, Hsplit.
      split; [tauto|]. intros [Hbad|Hbad]; [|exact Hbad].
      apply Hiff1 in Hbad. discriminate.
    + exists None. split; [reflexivity|]. rewrite Hsplit. tauto.
Qed.

(** On a string of ASCII bytes, a symbol outside the alphabet makes
    [DecodeString] return the empty sequence. *)
Lemma DecodeString_invalid_ascii (s : list byte) :
  Forall (fun c => b2z c < 128) s ->
  Exists (fun c => c ∉ alphabet e) s ->
  DecodeString e s = Ok [].
Proof.
  intros Hascii Hbad. unfold DecodeString.
  destruct (decode_chunks_ascii (length s) s 0 ltac:(lia) Hascii)
    as (r & Hr & Hiff).
  rewrite Hr. cbn [mbind result_bind].
  apply Hiff in Hbad. by subst r.
Qed.
End InvalidSymbols.

(** ** Test vectors of the repository *)

Example test_encode_empty : EncodeToString StdEncoding [] = Ok [].
Proof. reflexivity. Qed.

Example test_encode_space :
  EncodeToString StdEncoding (String.list_byte_of_string " ")
  = Ok (String.list_byte_of_string "w").
Proof. vm_compute. reflexivity. Qed.

Example test_encode_minus_one :
  EncodeToString StdEncoding (String.list_byte_of_string "-1")
  = Ok (String.list_byte_of_string "30B").
Proof. vm_compute. reflexivity. Qed.

Example test_decode_minus_one :
  DecodeString StdEncoding (String.list_byte_of_string "30B")
  = Ok (String.list_byte_of_string "-1").
Proof. vm_compute. reflexivity. Qed.

Example test_encode_alphabet :
  EncodeToString StdEncoding (String.list_byte_of_string "abcdefghijklmnopqrstuvwxyz")
  = Ok (String.list_byte_of_string "hUBXsgd3F2swSlEgbVi2p0Ncr6kzVeJTLaW").
Proof. vm_compute. reflexivity. Qed.

Example test_decode_hex_516b6fcd0f :
  DecodeString StdEncoding (String.list_byte_of_string "69HRUw7")
  = Ok [x51; x6b; x6f; xcd; x0f].
Proof. vm_compute. reflexivity. Qed.

Example test_decode_invalid :
  DecodeString StdEncoding (String.list_byte_of_string "3mJr?") = Ok [].
Proof. vm_compute. reflexivity. Qed.

Example test_EncodeUint64_zero :
  EncodeUint64 StdEncoding 0 = Ok (String.list_byte_of_string "0").
Proof. reflexivity. Qed.

Example test_EncodeUint64_max :
  EncodeUint64 StdEncoding (2 ^ 64 - 1)
  = Ok (String.list_byte_of_string "lYGhA16ahyf").
Proof. vm_compute. reflexivity. Qed.

(** [TestDecodeUint64Overflow]: the last symbol of the encoding of
    [2^64 - 1] incremented, and fourteen symbols [a]. *)
Example test_DecodeToUint64_overflow :
  DecodeToUint64 StdEncoding (String.list_byte_of_string "lYGhA16ahyg")
  = Ok (0, Some (Overflow (String.list_byte_of_string "lYGhA16ahyg"))) /\
  DecodeToUint64 StdEncoding (String.list_byte_of_string "aaaaaaaaaaaaaa")
  = Ok (0, Some (Overflow (String.list_byte_of_string "aaaaaaaaaaaaaa"))).
Proof. split; vm_compute; reflexivity. Qed.

(** * The claims *)

(** C1: for every byte sequence [b], the empty one and the all-zero ones
    included, decoding what the standard table encodes [b] to gives
    back exactly [b]. *)
Theorem C1_DecodeString_EncodeToString (b : list byte) :
  EncodeToString StdEncoding b ≫= DecodeString StdEncoding = Ok b.
Proof.
  apply DecodeString_EncodeToString_table.
  - exact StdEncoding_table_ok.
  - exact StdEncoding_ascii.
Qed.

(** C2, at a failing input: the string ["?"] holds a byte outside the
    standard alphabet, yet [DecodeToUint64] returns the value 255 and no
    error.  The test [i < 0] on a [byte] never holds, so the sentinel
    255 of [decodeMap] is taken as a digit. *)
Theorem C2_invalid_character_decodes :
  ("?"%byte ∉ alphabet StdEncoding) /\
  DecodeToUint64 StdEncoding ["?"%byte] = Ok (255, None).
Proof.
  split; [|reflexivity].
  apply (bool_decide_unpack _). vm_compute. exact I.
Qed.

(** C3, at a failing input: eleven symbols [Z] spell [62^11 - 1], which
    is above [2^64 - 1], yet [DecodeToUint64] returns a value and no
    error.  The sum wraps around to a value that is not below the
    previous accumulator, so the comparison [m < n] does not see it. *)
Theorem C3_overflow_decodes :
  let src := sym StdEncoding <$> replicate 11 61 in
  src = String.list_byte_of_string "ZZZZZZZZZZZ" /\
  2 ^ 64 <= from_digits (replicate 11 61) 0 /\
  DecodeToUint64 StdEncoding src = Ok (15143072536417990655, None).
Proof. repeat split; vm_compute; congruence. Qed.

(** C4, at a failing input: the one-byte string [0xFF] is outside the
    alphabet, and [DecodeString] panics on it rather than return the
    empty sequence.  The loop ranges over the string, so the byte is
    read as the rune [0xFFFD], an index outside the 256 entries of
    [decodeMap]. *)
Theorem C4_invalid_byte_panics :
  (xff ∉ alphabet StdEncoding) /\
  range_string [xff] = [65533] /\
  DecodeString StdEncoding [xff] = Panic.
Proof.
  split; [|split; reflexivity].
  apply (bool_decide_unpack _). vm_compute. exact I.
Qed.

(** C5: for every unsigned 64-bit integer [n], and every table built
    from 62 pairwise distinct symbols whose zero symbol is an ASCII byte
    (for such a byte [string(e.alphabetIdx0)] is the byte itself),
    [DecodeToUint64] of [EncodeUint64 n] is [n], with no error. *)
Theorem C5_DecodeToUint64_EncodeUint64 (alpha : list byte) (e : Encoding) (n : Z) :
  length alpha = 62%nat -> NoDup alpha -> New alpha = Ok e ->
  b2z (alphabetIdx0 e) < 128 ->
  0 <= n < 2 ^ 64 ->
  EncodeUint64 e n ≫= DecodeToUint64 e = Ok (n, None).
Proof.
  intros Hlen Hnd HNew Hzero Hn.
  destruct (New_table_ok alpha e Hlen Hnd HNew) as [Htab _].
  rewrite (EncodeUint64_spec e (ok_alphabet_length e Htab) n Hn).
  rewrite (string_of_byte_ascii _ Hzero).
  cbn [mbind result_bind]. unfold DecodeToUint64.
  destruct (Z.eqb_spec n 0) as [->|Hne].
  - rewrite <- (sym_zero e Htab).
    change [sym e 0] with (sym e <$> [0]).
    rewrite (DecodeToUint64_loop_spec e Htab);
      [reflexivity| |lia|reflexivity].
    apply Forall_cons_2; [unfold is_digit; lia|apply Forall_nil_2].
  - rewrite (DecodeToUint64_loop_spec e Htab).
    + by rewrite from_digits_to_digits by lia.
    + apply Forall_reverse, to_digits_is_digit.
    + lia.
    + rewrite from_digits_to_digits by lia. lia.
Qed.

Lemma C5_witness :
  EncodeUint64 StdEncoding (2 ^ 64 - 1) ≫= DecodeToUint64 StdEncoding
  = Ok (2 ^ 64 - 1, None).
Proof.
  apply (C5_DecodeToUint64_EncodeUint64 std_alphabet StdEncoding (2 ^ 64 - 1)).
  - reflexivity.
  - exact std_alphabet_NoDup.
  - reflexivity.
  - reflexivity.
  - lia.
Defined.

(** C6: on a table of 62 pairwise distinct ASCII symbols, a byte
    sequence with exactly [k] leading zero bytes is encoded to a string
    with exactly [k] leading zero symbols, and decoding that string
    gives a sequence with exactly [k] leading zero bytes. *)
Theorem C6_leading_zeros_preserved
    (alpha : list byte) (e : Encoding) (k : nat) (tl : list byte) :
  length alpha = 62%nat -> NoDup alpha ->
  Forall (fun c => b2z c < 128) alpha ->
  New alpha = Ok e ->
  head tl <> Some x00 ->
  exists rest rest' : list byte,
    EncodeToString e (replicate k x00 ++ tl)
    = Ok (replicate k (alphabetIdx0 e) ++ rest) /\
    head rest <> Some (alphabetIdx0 e) /\
    DecodeString e (replicate k (alphabetIdx0 e) ++ rest)
    = Ok (replicate k x00 ++ rest') /\
    head rest' <> Some x00.
Proof.
  intros Hlen Hnd Hascii HNew Htl.
  destruct (New_table_ok alpha e Hlen Hnd HNew) as [Htab Halpha].
  rewrite <- Halpha in Hascii.
  pose proof (DecodeString_EncodeToString_table e Htab Hascii
                (replicate k x00 ++ tl)) as Hrt.
  rewrite (EncodeToString_spec e (ok_alphabet_length e Htab)) in *.
  rewrite leading_zeros_prefix in * by assumption.
  cbn [mbind result_bind] in Hrt.
  eexists _, tl. split; [reflexivity|]. split; [|split].
  - apply (sym_head e Htab).
    + apply Forall_reverse, to_digits_is_digit.
    + rewrite head_reverse. apply to_digits_last.
  - exact Hrt.
  - exact Htl.
Qed.

Lemma C6_witness :
  exists rest rest' : list byte,
    EncodeToString StdEncoding (replicate 2 x00 ++ [x01; x00])
    = Ok (replicate 2 (alphabetIdx0 StdEncoding) ++ rest) /\
    head rest <> Some (alphabetIdx0 StdEncoding) /\
    DecodeString StdEncoding (replicate 2 (alphabetIdx0 StdEncoding) ++ rest)
    = Ok (replicate 2 x00 ++ rest') /\
    head rest' <> Some x00.
Proof.
  apply (C6_leading_zeros_preserved std_alphabet StdEncoding 2 [x01; x00]).
  - reflexivity.
  - exact std_alphabet_NoDup.
  - exact std_alphabet_ascii.
  - reflexivity.
  - discriminate.
Defined.

(** C7 as stated fails: twenty zero bytes are not encoded to ten zero
    symbols. *)
Lemma C7_twenty_zero_bytes_counterexample :
  EncodeToString StdEncoding (replicate 20 x00)
  <> Ok (String.list_byte_of_string "0000000000").
Proof. vm_compute. discriminate. Qed.

(** C7, amended: under the standard alphabet ten zero bytes are encoded
    to the ten zero symbols ["0000000000"], and twenty zero bytes to
    twenty zero symbols. *)
Theorem C7_zero_bytes_one_symbol_each :
  EncodeToString StdEncoding (replicate 10 x00)
  = Ok (String.list_byte_of_string "0000000000") /\
  EncodeToString StdEncoding (replicate 20 x00)
  = Ok (String.list_byte_of_string "00000000000000000000").
Proof. split; vm_compute; reflexivity. Qed.

(** C8: both encoders are total.  On a table built by [New], every byte
    sequence and every unsigned 64-bit integer is encoded to a string:
    no access to the alphabet is out of bounds, and every chunk
    remainder is unchanged by the conversion to a 64-bit integer. *)
Theorem C8_encoders_total (alpha : list byte) (e : Encoding) :
  New alpha = Ok e ->
  (forall b : list byte, exists s, EncodeToString e b = Ok s) /\
  (forall n : Z, 0 <= n < 2 ^ 64 -> exists s, EncodeUint64 e n = Ok s) /\
  (forall x : Z, to_int64 (x mod bigRadix10) = x mod bigRadix10).
Proof.
  intros HNew. pose proof (New_alphabet_length alpha e HNew) as Hlen.
  split; [|split].
  - intros b. eexists. apply (EncodeToString_spec e Hlen).
  - intros n Hn. eexists. apply (EncodeUint64_spec e Hlen n Hn).
  - intros x. apply to_int64_small, chunk_remainder_bound.
Qed.

Lemma C8_witness :
  (forall b : list byte, exists s, EncodeToString StdEncoding b = Ok s) /\
  (forall n : Z, 0 <= n < 2 ^ 64 -> exists s, EncodeUint64 StdEncoding n = Ok s) /\
  (forall x : Z, to_int64 (x mod bigRadix10) = x mod bigRadix10).
Proof.
  apply (C8_encoders_total std_alphabet StdEncoding). reflexivity.
Defined.

(** C9: for an alphabet of exactly 62 pairwise distinct bytes, [New]
    returns a table whose [decodeMap] sends the symbol at index [i] to
    the digit [i] and every byte outside the alphabet to 255, and no
    sequence of method calls changes the table. *)
Theorem C9_New_decodeMap (alpha : list byte) :
  length alpha = 62%nat -> NoDup alpha ->
  exists e,
    New alpha = Ok e /\
    alphabet e = alpha /\
    (forall (i : nat) (c : byte),
        alpha !! i = Some c ->
        index (decodeMap e) (b2z c) = Ok (z2b (Z.of_nat i))) /\
    (forall c : byte, c ∉ alpha -> index (decodeMap e) (b2z c) = Ok xff) /\
    (forall cs : list call, table_after e cs = e).
Proof.
  intros Hlen Hnd.
  destruct (New_full alpha Hlen) as (idx0 & H0 & HNew).
  eexists. split; [exact HNew|].
  destruct (New_table_ok alpha _ Hlen Hnd HNew) as [Htab Halpha].
  split; [exact Halpha|]. split; [|split].
  - intros i c Hi. pose proof (b2z_range c).
    apply index_Ok; [lia|]. rewrite <- b2n_b2z.
    apply (ok_inverse _ Htab). by rewrite Halpha.
  - intros c Hc. pose proof (b2z_range c).
    apply index_Ok; [lia|]. rewrite <- b2n_b2z.
    apply (ok_invalid _ Htab). by rewrite Halpha.
  - intros cs. induction cs as [|c cs IH]; [reflexivity|].
    destruct c; exact IH.
Qed.

Lemma C9_witness :
  exists e,
    New std_alphabet = Ok e /\
    alphabet e = std_alphabet /\
    (forall (i : nat) (c : byte),
        std_alphabet !! i = Some c ->
        index (decodeMap e) (b2z c) = Ok (z2b (Z.of_nat i))) /\
    (forall c : byte, c ∉ std_alphabet -> index (decodeMap e) (b2z c) = Ok xff) /\
    (forall cs : list call, table_after e cs = e).
Proof.
  apply (C9_New_decodeMap std_alphabet).
  - reflexivity.
  - exact std_alphabet_NoDup.
Defined.

(** C10: on a table whose zero symbol is an ASCII byte (for such a byte
    [string(e.alphabetIdx0)] is the byte itself), for every unsigned
    64-bit integer [n], [EncodeUint64 n] is [EncodeToString] of the
    minimal big-endian bytes of [n], the single byte [0x00] for [n = 0];
    these bytes are what the test helper [marshallUint64] computes. *)
Theorem C10_EncodeUint64_is_EncodeToString
    (alpha : list byte) (e : Encoding) (n : Z) :
  New alpha = Ok e -> b2z (alphabetIdx0 e) < 128 -> 0 <= n < 2 ^ 64 ->
  EncodeUint64 e n = EncodeToString e (minimal_big_endian n) /\
  marshallUint64 n = minimal_big_endian n.
Proof.
  intros HNew Hzero Hn. split; [|by apply marshallUint64_minimal].
  pose proof (New_alphabet_length alpha e HNew) as Hlen.
  rewrite (EncodeUint64_spec e Hlen n Hn), (EncodeToString_spec e Hlen).
  rewrite (string_of_byte_ascii _ Hzero).
  unfold minimal_big_endian.
  destruct (Z.eqb_spec n 0) as [->|Hne].
  - change (SetBytes [x00]) with 0. rewrite to_digits_nonpos by lia.
    reflexivity.
  - rewrite leading_zeros_Bytes, SetBytes_Bytes by lia. reflexivity.
Qed.

Lemma C10_witness :
  EncodeUint64 StdEncoding 1000000
  = EncodeToString StdEncoding (minimal_big_endian 1000000) /\
  marshallUint64 1000000 = minimal_big_endian 1000000.
Proof.
  apply (C10_EncodeUint64_is_EncodeToString std_alphabet StdEncoding 1000000).
  - reflexivity.
  - reflexivity.
  - lia.
Defined.

(** * Further properties of the package *)

(** ** [New] on any alphabet *)

Lemma New_inv (alpha : list byte) (e : Encoding) :
  New alpha = Ok e ->
  exists idx0,
    alpha !! 0%nat = Some idx0 /\
    e = {| alphabet := copy62 alpha;
           decodeMap := fill_decodeMap 0 (copy62 alpha) (replicate 256 xff);
           alphabetIdx0 := idx0 |}.
Proof.
  unfold New. destruct alpha as [|c alpha]; [discriminate|].
  change (index (c :: alpha) 0) with (Ok (A:=byte) c) at 1.
  cbn [mbind result_bind]. intros [= <-]. by exists c.
Qed.

Lemma New_idx0 (alpha : list byte) (e : Encoding) :
  New alpha = Ok e -> alphabet e !! 0%nat = Some (alphabetIdx0 e).
Proof.
  intros HNew. destruct (New_inv alpha e HNew) as (idx0 & H0 & ->).
  cbn [alphabet alphabetIdx0]. destruct alpha as [|c alpha]; [done|].
  injection H0 as ->. reflexivity.
Qed.

Lemma last_occurrence (l : list byte) (c : byte) :
  c ∈ l ->
  exists i, l !! i = Some c /\ forall j, (i < j)%nat -> l !! j <> Some c.
Proof.
  induction l as [|a l IH]; intros Hc; [by apply elem_of_nil in Hc|].
  destruct (decide (c ∈ l)) as [Hin|Hout].
  - destruct (IH Hin) as (i & Hi & Hlast). exists (S i). split; [exact Hi|].
    intros [|j] Hj; [lia|]. simpl. apply Hlast. lia.
  - apply elem_of_cons in Hc as [->|Hc]; [|contradiction].
    exists 0%nat. split; [reflexivity|].
    intros [|j] Hj; [lia|]. simpl. intros Hl. apply Hout.
    by apply list_elem_of_lookup_2 in Hl.
Qed.

Lemma fill_decodeMap_last (alpha : list byte) :
  forall (j : nat) (c : byte) (i : Z) (dm : list byte),
    length dm = 256%nat ->
    alpha !! j = Some c ->
    (forall j', (j < j')%nat -> alpha !! j' <> Some c) ->
    fill_decodeMap i alpha dm !! b2n c = Some (z2b (i + Z.of_nat j)).
Proof.
  induction alpha as [|a rest IH]; intros j c i dm Hlen Hj Hlast; [done|].
  destruct j as [|j]; simpl in *.
  - injection Hj as ->.
    rewrite fill_decodeMap_other.
    + rewrite Z.add_0_r. apply list_lookup_insert_eq.
      rewrite Hlen. apply b2n_lt.
    + intros Hin. apply list_elem_of_lookup_1 in Hin as [k Hk].
      apply (Hlast (S k)); [lia|exact Hk].
  - rewrite (IH j c (i + 1)).
    + f_equal. f_equal. lia.
    + by rewrite length_insert.
    + assumption.
    + intros j' Hj'. apply (Hlast (S j')). lia.
Qed.

(** X1: [New] panics exactly on the empty alphabet, where it reads
    [alphabet[0]]; any other length is accepted. *)
Theorem X1_New_panics_iff_empty (alpha : list byte) :
  New alpha = Panic <-> alpha = [].
Proof.
  split.
  - destruct alpha as [|c alpha]; [reflexivity|].
    unfold New. change (index (c :: alpha) 0) with (Ok (A:=byte) c) at 1.
    discriminate.
  - intros ->. reflexivity.
Qed.

(** X2: whatever the length of the alphabet, the table [New] returns has
    62 symbols, the first 62 given ones padded with zero bytes, its zero
    symbol is the first given symbol, and every one of the 256 entries
    of [decodeMap] is either the sentinel 255 or a digit below 62. *)
Theorem X2_New_table_shape (alpha : list byte) (e : Encoding) :
  New alpha = Ok e ->
  alphabet e = take 62 alpha ++ replicate (62 - length alpha) x00 /\
  head alpha = Some (alphabetIdx0 e) /\
  length (decodeMap e) = 256%nat /\
  forall c : byte,
    exists v, index (decodeMap e) (b2z c) = Ok v /\ (b2z v = 255 \/ b2z v < 62).
Proof.
  intros HNew. destruct (New_inv alpha e HNew) as (idx0 & H0 & ->).
  cbn [alphabet alphabetIdx0 decodeMap].
  assert (Hshape : copy62 alpha = take 62 alpha ++ replicate (62 - length alpha) x00).
  { unfold copy62, copy_at.
    rewrite length_replicate, drop_replicate, Nat.sub_0_r. reflexivity. }
  split; [exact Hshape|]. split; [by rewrite head_lookup|].
  split; [rewrite length_fill_decodeMap; reflexivity|].
  intros c. pose proof (b2z_range c).
  destruct (decide (c ∈ copy62 alpha)) as [Hin|Hout].
  - destruct (last_occurrence _ _ Hin) as (i & Hi & Hlast).
    pose proof (lookup_lt_Some _ _ _ Hi) as Hlt. rewrite length_copy62 in Hlt.
    exists (z2b (Z.of_nat i)). split.
    + apply index_Ok; [lia|]. rewrite <- b2n_b2z.
      rewrite (fill_decodeMap_last _ i c 0); [reflexivity|reflexivity|exact Hi|exact Hlast].
    + right. rewrite b2z_z2b by lia. lia.
  - exists xff. split; [|by left].
    apply index_Ok; [lia|]. rewrite <- b2n_b2z.
    rewrite fill_decodeMap_other by assumption. apply blank_decodeMap.
Qed.

Lemma X2_witness :
  alphabet StdEncoding
  = take 62 std_alphabet ++ replicate (62 - length std_alphabet) x00 /\
  head std_alphabet = Some (alphabetIdx0 StdEncoding) /\
  length (decodeMap StdEncoding) = 256%nat /\
  forall c : byte,
    exists v, index (decodeMap StdEncoding) (b2z c) = Ok v /\
              (b2z v = 255 \/ b2z v < 62).
Proof. apply (X2_New_table_shape std_alphabet StdEncoding). reflexivity. Defined.

(** X3: [New] does not ask the symbols to be distinct.  A byte is sent to
    255 exactly when it is not among the 62 symbols of the table, and a
    symbol that occurs more than once decodes to its last index. *)
Theorem X3_New_last_index_wins (alpha : list byte) (e : Encoding) :
  New alpha = Ok e ->
  (forall c : byte,
      index (decodeMap e) (b2z c) = Ok xff <-> c ∉ alphabet e) /\
  (forall (i : nat) (c : byte),
      alphabet e !! i = Some c ->
      (forall j, (i < j)%nat -> alphabet e !! j <> Some c) ->
      index (decodeMap e) (b2z c) = Ok (z2b (Z.of_nat i))).
Proof.
  intros HNew. destruct (New_inv alpha e HNew) as (idx0 & H0 & ->).
  cbn [alphabet alphabetIdx0 decodeMap].
  assert (Hlast : forall (i : nat) (c : byte),
             copy62 alpha !! i = Some c ->
             (forall j, (i < j)%nat -> copy62 alpha !! j <> Some c) ->
             index (fill_decodeMap 0 (copy62 alpha) (replicate 256 xff)) (b2z c)
             = Ok (z2b (Z.of_nat i))).
  { intros i c Hi Hl. pose proof (b2z_range c).
    apply index_Ok; [lia|]. rewrite <- b2n_b2z.
    rewrite (fill_decodeMap_last _ i c 0); [reflexivity|reflexivity|exact Hi|exact Hl]. }
  split; [|exact Hlast].
  intros c. pose proof (b2z_range c). split.
  - intros Hff Hin.
    destruct (last_occurrence _ _ Hin) as (i & Hi & Hl).
    pose proof (lookup_lt_Some _ _ _ Hi) as Hlt. rewrite length_copy62 in Hlt.
    rewrite (Hlast i c Hi Hl) in Hff. injection Hff as Hff.
    apply (f_equal b2z) in Hff. rewrite b2z_z2b in Hff by lia.
    change (b2z xff) with 255 in Hff. lia.
  - intros Hout. apply index_Ok; [lia|]. rewrite <- b2n_b2z.
    rewrite fill_decodeMap_other by assumption. apply blank_decodeMap.
Qed.

Lemma X3_witness :
  (forall c : byte,
      index (decodeMap StdEncoding) (b2z c) = Ok xff <-> c ∉ alphabet StdEncoding) /\
  (forall (i : nat) (c : byte),
      alphabet StdEncoding !! i = Some c ->
      (forall j, (i < j)%nat -> alphabet StdEncoding !! j <> Some c) ->
      index (decodeMap StdEncoding) (b2z c) = Ok (z2b (Z.of_nat i))).
Proof. apply (X3_New_last_index_wins std_alphabet StdEncoding). reflexivity. Defined.

(** ** The encoders *)

Lemma sym_elem (e : Encoding) (d : Z) :
  length (alphabet e) = 62%nat -> is_digit d -> sym e d ∈ alphabet e.
Proof.
  intros Hlen Hd. unfold is_digit in Hd. unfold sym.
  destruct (lookup_lt_is_Some_2 (alphabet e) (Z.to_nat d)) as [c Hc]; [lia|].
  rewrite Hc. simpl. by apply list_elem_of_lookup_2 in Hc.
Qed.

Lemma fmap_sym_inj (e : Encoding) (l1 : list Z) :
  table_ok e ->
  Forall is_digit l1 ->
  forall l2, Forall is_digit l2 -> sym e <$> l1 = sym e <$> l2 -> l1 = l2.
Proof.
  intros Htab. induction 1 as [|d l1 Hd _ IH]; intros l2 Hl2 Heq.
  - destruct l2; [reflexivity|discriminate].
  - destruct Hl2 as [|d2 l2 Hd2 Hl2]; [discriminate|].
    rewrite !fmap_cons in Heq. injection Heq as Hs Heq.
    f_equal; [by apply (sym_inj e Htab)|by apply IH].
Qed.

Lemma to_digits_nil_iff (x : Z) : to_digits x = [] <-> x <= 0.
Proof.
  split; [|apply to_digits_nonpos].
  intros H. destruct (Z_le_gt_dec x 0) as [Hle|Hgt]; [assumption|].
  rewrite to_digits_pos in H by lia. discriminate.
Qed.

Lemma to_digits_length_ge (k : nat) :
  forall x, 62 ^ Z.of_nat k <= x -> (k < length (to_digits x))%nat.
Proof.
  induction k as [|k IH]; intros x Hx.
  - change (62 ^ Z.of_nat 0) with 1 in Hx.
    rewrite to_digits_pos by lia. simpl. lia.
  - rewrite Nat2Z.inj_succ, Z.pow_succ_r in Hx by lia.
    assert (0 < 62 ^ Z.of_nat k) by (apply Z.pow_pos_nonneg; lia).
    rewrite to_digits_pos by lia. simpl.
    specialize (IH (x / 62)).
    assert (62 ^ Z.of_nat k <= x / 62) by (apply Z.div_le_lower_bound; lia).
    lia.
Qed.

Lemma SetBytes_strip (b : list byte) :
  SetBytes (drop (leading_zeros b) b) = SetBytes b.
Proof.
  induction b as [|c b IH]; [reflexivity|].
  rewrite strip_cons. destruct (Z.eqb_spec (b2z c) 0) as [Hc|Hc]; [|reflexivity].
  rewrite IH, SetBytes_cons, Hc. lia.
Qed.

Lemma SetBytes_lt (b : list byte) : SetBytes b < 256 ^ Z.of_nat (length b).
Proof.
  induction b as [|c rest IH] using rev_ind; [reflexivity|].
  rewrite SetBytes_snoc, length_app, Nat2Z.inj_add, Z.pow_add_r by lia.
  simpl length. change (256 ^ Z.of_nat 1) with 256.
  pose proof (b2z_range c). lia.
Qed.

Lemma strip_head (b : list byte) :
  head (drop (leading_zeros b) b) <> Some x00.
Proof.
  induction b as [|c b IH]; [discriminate|].
  rewrite strip_cons. destruct (Z.eqb_spec (b2z c) 0) as [Hc|Hc]; [exact IH|].
  simpl. intros [= ->]. by apply Hc.
Qed.

Lemma pow_256_62 (m : nat) : 256 ^ Z.of_nat m <= 62 ^ Z.of_nat ((3 * m + 1) / 2).
Proof.
  assert (Heven : forall t : nat, 256 ^ Z.of_nat (2 * t) <= 62 ^ Z.of_nat (3 * t)).
  { intros t. rewrite !Nat2Z.inj_mul, !Z.pow_mul_r by lia.
    apply Z.pow_le_mono_l. split; vm_compute; discriminate. }
  assert (Hm : exists t : nat, m = (2 * t)%nat \/ m = S (2 * t)).
  { exists (m / 2)%nat. pose proof (Nat.div_mod_eq m 2).
    pose proof (Nat.mod_upper_bound m 2 ltac:(lia)). lia. }
  destruct Hm as [t [-> | ->]].
  - replace ((3 * (2 * t) + 1) / 2)%nat with (3 * t)%nat
      by (apply (Nat.div_unique _ 2 _ 1); lia).
    apply Heven.
  - replace ((3 * S (2 * t) + 1) / 2)%nat with (S (S (3 * t)))
      by (apply (Nat.div_unique _ 2 _ 0); lia).
    assert (Hp : 0 < 62 ^ Z.of_nat (3 * t)) by (apply Z.pow_pos_nonneg; lia).
    rewrite !Nat2Z.inj_succ, !Z.pow_succ_r by lia.
    specialize (Heven t). lia.
Qed.

(** X4: on a table built by [New], every symbol [EncodeToString] writes
    is one of the 62 symbols of the table. *)
Theorem X4_EncodeToString_alphabet (alpha : list byte) (e : Encoding) (b : list byte) :
  New alpha = Ok e ->
  exists s, EncodeToString e b = Ok s /\ Forall (fun c => c ∈ alphabet e) s.
Proof.
  intros HNew. pose proof (New_alphabet_length alpha e HNew) as Hlen.
  eexists. split; [apply (EncodeToString_spec e Hlen)|].
  apply Forall_app. split.
  - apply Forall_replicate.
    apply (list_elem_of_lookup_2 _ 0%nat). by apply (New_idx0 alpha).
  - apply Forall_fmap. eapply Forall_impl.
    + apply Forall_reverse, to_digits_is_digit.
    + intros d Hd. by apply sym_elem.
Qed.

Lemma X4_witness :
  exists s, EncodeToString StdEncoding [x2d; x31] = Ok s /\
            Forall (fun c => c ∈ alphabet StdEncoding) s.
Proof.
  apply (X4_EncodeToString_alphabet std_alphabet StdEncoding [x2d; x31]).
  reflexivity.
Defined.

(** X5: on a table built by [New], [EncodeToString] returns the empty
    string for the empty input only. *)
Theorem X5_EncodeToString_empty_iff (alpha : list byte) (e : Encoding) (b : list byte) :
  New alpha = Ok e ->
  EncodeToString e b = Ok [] <-> b = [].
Proof.
  intros HNew. pose proof (New_alphabet_length alpha e HNew) as Hlen.
  rewrite (EncodeToString_spec e Hlen). split.
  - intros [= Hs]. apply app_eq_nil in Hs as [Hk Hd].
    apply fmap_nil_inv in Hd.
    assert (Hx : to_digits (SetBytes b) = []).
    { apply (f_equal reverse) in Hd. by rewrite reverse_involutive in Hd. }
    apply to_digits_nil_iff in Hx. pose proof (SetBytes_nonneg b).
    assert (Hz : SetBytes b = 0) by lia. apply SetBytes_zero_iff in Hz.
    destruct (leading_zeros b) eqn:Hl; [|discriminate]. exact Hz.
  - intros ->. reflexivity.
Qed.

Lemma X5_witness : EncodeToString StdEncoding [] = Ok [] <-> [] = ([] : list byte).
Proof. apply (X5_EncodeToString_empty_iff std_alphabet StdEncoding []). reflexivity. Defined.

(** X6: on a table of 62 pairwise distinct symbols, [EncodeToString]
    is injective: two byte sequences with the same encoding are equal. *)
Theorem X6_EncodeToString_injective
    (alpha : list byte) (e : Encoding) (b1 b2 : list byte) :
  length alpha = 62%nat -> NoDup alpha -> New alpha = Ok e ->
  EncodeToString e b1 = EncodeToString e b2 -> b1 = b2.
Proof.
  intros Hlen Hnd HNew Heq.
  destruct (New_table_ok alpha e Hlen Hnd HNew) as [Htab _].
  rewrite !(EncodeToString_spec e (ok_alphabet_length e Htab)) in Heq.
  injection Heq as Heq.
  assert (Hr : forall b : list byte,
             Forall is_digit (reverse (to_digits (SetBytes b))) /\
             head (reverse (to_digits (SetBytes b))) <> Some 0).
  { intros b. split; [apply Forall_reverse, to_digits_is_digit|].
    rewrite head_reverse. apply to_digits_last. }
  destruct (Hr b1) as [Hd1 Hh1]. destruct (Hr b2) as [Hd2 Hh2].
  pose proof (f_equal (count_zero_symbols e) Heq) as Hk.
  rewrite !count_zero_symbols_prefix in Hk by by apply (sym_head e Htab).
  rewrite Hk in Heq. apply app_inv_head in Heq.
  apply (fmap_sym_inj e _ Htab Hd1 _ Hd2) in Heq.
  apply (f_equal (fun ds => from_digits ds 0)) in Heq.
  rewrite !from_digits_to_digits in Heq by apply SetBytes_nonneg.
  rewrite <- (leading_zeros_restore b1), <- (leading_zeros_restore b2).
  rewrite <- !Bytes_SetBytes. congruence.
Qed.

Lemma X6_witness : [x00; x2a] = [x00; x2a] :> list byte.
Proof.
  apply (X6_EncodeToString_injective std_alphabet StdEncoding [x00; x2a] [x00; x2a]).
  - reflexivity.
  - exact std_alphabet_NoDup.
  - reflexivity.
  - reflexivity.
Defined.

(** X7: on a table built by [New], the encoding of [b] has at least as
    many symbols as [b] has bytes and at most [3 * len(b) / 2 + 1], the
    capacity the code reserves for it. *)
Theorem X7_EncodeToString_length (alpha : list byte) (e : Encoding) (b : list byte) :
  New alpha = Ok e ->
  exists s,
    EncodeToString e b = Ok s /\
    Z.of_nat (length b) <= Z.of_nat (length s) <= 3 * Z.of_nat (length b) / 2 + 1.
Proof.
  intros HNew. pose proof (New_alphabet_length alpha e HNew) as Hlen.
  eexists. split; [apply (EncodeToString_spec e Hlen)|].
  rewrite length_app, length_replicate, length_fmap, length_reverse.
  set (k := leading_zeros b). set (t := drop k b).
  assert (Hb : length b = (k + length t)%nat).
  { unfold t. rewrite length_drop. pose proof (leading_zeros_le b). lia. }
  assert (Hx : SetBytes b = SetBytes t) by (symmetry; apply SetBytes_strip).
  rewrite Hx, Hb.
  assert (Hup : (length (to_digits (SetBytes t)) <= (3 * length t + 1) / 2)%nat).
  { apply to_digits_length.
    pose proof (SetBytes_lt t). pose proof (pow_256_62 (length t)). lia. }
  assert (Hlo : (length t <= length (to_digits (SetBytes t)))%nat).
  { pose proof (strip_head b) as Hh. fold k in Hh. fold t in Hh.
    destruct t as [|c t']; [simpl; lia|].
    assert (Hc : 1 <= b2z c).
    { pose proof (b2z_range c).
      destruct (Z.eq_dec (b2z c) 0) as [H0|H0]; [|lia].
      apply b2z_zero_iff in H0. subst c. by destruct Hh. }
    pose proof (to_digits_length_ge (length t') (SetBytes (c :: t'))) as Hge.
    simpl length. apply Hge.
    rewrite SetBytes_cons. pose proof (SetBytes_nonneg t').
    assert (62 ^ Z.of_nat (length t') <= 256 ^ Z.of_nat (length t')).
    { apply Z.pow_le_mono_l. lia. }
    assert (0 < 256 ^ Z.of_nat (length t')) by (apply Z.pow_pos_nonneg; lia).
    nia. }
  split; [lia|].
  pose proof (Nat.div_mod_eq (3 * length t + 1) 2).
  pose proof (Nat.mod_upper_bound (3 * length t + 1) 2 ltac:(lia)).
  assert (Z.of_nat (k + length (to_digits (SetBytes t))) - 1
          <= 3 * Z.of_nat (k + length t) / 2)
    by (apply Z.div_le_lower_bound; lia).
  lia.
Qed.

Lemma X7_witness :
  exists s,
    EncodeToString StdEncoding [x00; xff; xff] = Ok s /\
    Z.of_nat (length [x00; xff; xff]) <= Z.of_nat (length s)
    <= 3 * Z.of_nat (length [x00; xff; xff]) / 2 + 1.
Proof.
  apply (X7_EncodeToString_length std_alphabet StdEncoding [x00; xff; xff]).
  reflexivity.
Defined.

(** X8: the swap loop at the end of [EncodeToString] reverses the buffer
    in place and never reads or writes outside it. *)
Theorem X8_reverse_in_place (answer : list byte) :
  reverse_in_place answer = Ok (reverse answer).
Proof. apply reverse_in_place_spec. Qed.

(** ** The fixed-width codec *)

Lemma DecodeToUint64_loop_app (e : Encoding) (src rest : list byte) (ds : list Z) :
  table_ok e ->
  Forall is_digit ds ->
  forall acc, 0 <= acc -> from_digits ds acc < 2 ^ 64 ->
    DecodeToUint64_loop e src ((sym e <$> ds) ++ rest) acc
    = DecodeToUint64_loop e src rest (from_digits ds acc).
Proof.
  intros Htab. induction 1 as [|d ds Hd Hds IH]; intros acc Hacc Hlt; [reflexivity|].
  rewrite fmap_cons. cbn [app DecodeToUint64_loop].
  rewrite (decodeMap_sym e Htab) by assumption. cbn [mbind result_bind].
  unfold is_digit in Hd. rewrite b2z_z2b by lia.
  destruct (Z.ltb_spec d 0); [lia|].
  change (from_digits (d :: ds) acc) with (from_digits ds (acc * 62 + d)) in *.
  pose proof (from_digits_ge ds Hds (acc * 62 + d) ltac:(lia)).
  unfold wrap64, radix. rewrite Z.mod_small by lia.
  destruct (Z.ltb_spec (acc * 62 + d) acc); [lia|].
  apply IH; lia.
Qed.

Lemma DecodeToUint64_loop_outcomes (e : Encoding) (src rest : list byte) :
  length (decodeMap e) = 256%nat ->
  forall acc, 0 <= acc < 2 ^ 64 ->
    exists n, 0 <= n < 2 ^ 64 /\
      (DecodeToUint64_loop e src rest acc = Ok (n, None) \/
       (n = 0 /\ DecodeToUint64_loop e src rest acc = Ok (0, Some (Overflow src)))).
Proof.
  intros Hlen. induction rest as [|c rest IH]; intros acc Hacc.
  - exists acc. split; [assumption|by left].
  - cbn [DecodeToUint64_loop]. pose proof (b2z_range c).
    destruct (lookup_lt_is_Some_2 (decodeMap e) (Z.to_nat (b2z c))) as [i Hi]; [lia|].
    rewrite (index_Ok _ _ i) by first [lia|assumption].
    cbn [mbind result_bind]. pose proof (b2z_range i).
    destruct (Z.ltb_spec (b2z i) 0); [lia|].
    destruct (Z.ltb_spec (wrap64 (acc * radix + b2z i)) acc).
    + exists 0. split; [lia|]. right. by split.
    + apply IH. unfold wrap64. apply Z.mod_pos_bound. lia.
Qed.

(** X9: on a table built by [New] whose zero symbol is an ASCII byte,
    [EncodeUint64] writes between 1 and 11 symbols, all of them symbols
    of the table. *)
Theorem X9_EncodeUint64_shape (alpha : list byte) (e : Encoding) (n : Z) :
  New alpha = Ok e -> b2z (alphabetIdx0 e) < 128 -> 0 <= n < 2 ^ 64 ->
  exists s,
    EncodeUint64 e n = Ok s /\
    (1 <= length s <= 11)%nat /\
    Forall (fun c => c ∈ alphabet e) s.
Proof.
  intros HNew Hzero Hn. pose proof (New_alphabet_length alpha e HNew) as Hlen.
  eexists. split; [apply (EncodeUint64_spec e Hlen n Hn)|].
  rewrite (string_of_byte_ascii _ Hzero).
  destruct (Z.eqb_spec n 0) as [->|Hne].
  - split; [simpl; lia|]. apply Forall_cons_2; [|apply Forall_nil_2].
    apply (list_elem_of_lookup_2 _ 0%nat). by apply (New_idx0 alpha).
  - rewrite length_fmap, length_reverse. split.
    + split.
      * pose proof (to_digits_length_ge 0 n). simpl in *. lia.
      * apply to_digits_length.
        assert (2 ^ 64 < 62 ^ Z.of_nat 11) by (vm_compute; reflexivity). lia.
    + apply Forall_fmap. eapply Forall_impl.
      * apply Forall_reverse, to_digits_is_digit.
      * intros d Hd. by apply sym_elem.
Qed.

Lemma X9_witness :
  exists s,
    EncodeUint64 StdEncoding (2 ^ 64 - 1) = Ok s /\
    (1 <= length s <= 11)%nat /\
    Forall (fun c => c ∈ alphabet StdEncoding) s.
Proof.
  apply (X9_EncodeUint64_shape std_alphabet StdEncoding (2 ^ 64 - 1));
    [reflexivity|reflexivity|lia].
Defined.

(** X10: on a table of 62 pairwise distinct symbols whose zero symbol is
    an ASCII byte, [EncodeUint64] is injective on the unsigned 64-bit
    integers. *)
Theorem X10_EncodeUint64_injective
    (alpha : list byte) (e : Encoding) (n1 n2 : Z) :
  length alpha = 62%nat -> NoDup alpha -> New alpha = Ok e ->
  b2z (alphabetIdx0 e) < 128 ->
  0 <= n1 < 2 ^ 64 -> 0 <= n2 < 2 ^ 64 ->
  EncodeUint64 e n1 = EncodeUint64 e n2 -> n1 = n2.
Proof.
  intros Hlen Hnd HNew Hzero Hn1 Hn2 Heq.
  destruct (New_table_ok alpha e Hlen Hnd HNew) as [Htab _].
  rewrite !(EncodeUint64_spec e (ok_alphabet_length e Htab)) in Heq by assumption.
  rewrite (string_of_byte_ascii _ Hzero) in Heq.
  injection Heq as Heq.
  assert (Hz : forall n, 0 < n ->
             [alphabetIdx0 e] <> sym e <$> reverse (to_digits n)).
  { intros n Hpos Hs. rewrite <- (sym_zero e Htab) in Hs.
    change [sym e 0] with (sym e <$> [0]) in Hs.
    apply (fmap_sym_inj e _ Htab) in Hs.
    - pose proof (to_digits_last n) as Hl. rewrite <- head_reverse, <- Hs in Hl.
      by apply Hl.
    - apply Forall_cons_2; [unfold is_digit; lia|apply Forall_nil_2].
    - apply Forall_reverse, to_digits_is_digit. }
  destruct (Z.eqb_spec n1 0) as [->|H1]; destruct (Z.eqb_spec n2 0) as [->|H2].
  - reflexivity.
  - exfalso. apply (Hz n2); [lia|exact Heq].
  - exfalso. apply (Hz n1); [lia|by symmetry].
  - apply (fmap_sym_inj e _ Htab) in Heq;
      [|apply Forall_reverse, to_digits_is_digit
       |apply Forall_reverse, to_digits_is_digit].
    apply (f_equal (fun ds => from_digits ds 0)) in Heq.
    rewrite !from_digits_to_digits in Heq by lia. exact Heq.
Qed.

Lemma X10_witness : 3843 = 3843.
Proof.
  apply (X10_EncodeUint64_injective std_alphabet StdEncoding 3843 3843).
  - reflexivity.
  - exact std_alphabet_NoDup.
  - reflexivity.
  - reflexivity.
  - lia.
  - lia.
  - reflexivity.
Defined.

(** X11: on a table of 62 pairwise distinct symbols, [DecodeToUint64]
    returns the base-62 value of any string of symbols whose value fits
    in 64 bits, with no error; leading zero symbols are accepted and the
    empty string decodes to 0. *)
Theorem X11_DecodeToUint64_value
    (alpha : list byte) (e : Encoding) (ds : list Z) :
  length alpha = 62%nat -> NoDup alpha -> New alpha = Ok e ->
  Forall is_digit ds -> from_digits ds 0 < 2 ^ 64 ->
  DecodeToUint64 e (sym e <$> ds) = Ok (from_digits ds 0, None).
Proof.
  intros Hlen Hnd HNew Hds Hlt.
  destruct (New_table_ok alpha e Hlen Hnd HNew) as [Htab _].
  unfold DecodeToUint64. apply (DecodeToUint64_loop_spec e Htab); [assumption|lia|assumption].
Qed.

Lemma X11_witness :
  DecodeToUint64 StdEncoding (sym StdEncoding <$> [0; 0; 1; 61])
  = Ok (from_digits [0; 0; 1; 61] 0, None).
Proof.
  apply (X11_DecodeToUint64_value std_alphabet StdEncoding [0; 0; 1; 61]).
  - reflexivity.
  - exact std_alphabet_NoDup.
  - reflexivity.
  - repeat (apply Forall_cons_2; [unfold is_digit; lia|]). apply Forall_nil_2.
  - vm_compute. reflexivity.
Defined.

(** X12: on a table built by [New], [DecodeToUint64] never panics, and
    on every string it returns either a value in the unsigned 64-bit
    range with no error, or the value 0 with the overflow error that
    carries the whole input string; it has no other outcome. *)
Theorem X12_DecodeToUint64_outcomes
    (alpha : list byte) (e : Encoding) (src : list byte) :
  New alpha = Ok e ->
  exists n, 0 <= n < 2 ^ 64 /\
    (DecodeToUint64 e src = Ok (n, None) \/
     (n = 0 /\ DecodeToUint64 e src = Ok (0, Some (Overflow src)))).
Proof.
  intros HNew. unfold DecodeToUint64.
  apply DecodeToUint64_loop_outcomes; [|lia].
  destruct (New_inv alpha e HNew) as (idx0 & _ & ->).
  cbn [decodeMap]. rewrite length_fill_decodeMap. reflexivity.
Qed.

Lemma X12_witness :
  exists n, 0 <= n < 2 ^ 64 /\
    (DecodeToUint64 StdEncoding [x3f; x21] = Ok (n, None) \/
     (n = 0 /\ DecodeToUint64 StdEncoding [x3f; x21]
               = Ok (0, Some (Overflow [x3f; x21])))).
Proof.
  apply (X12_DecodeToUint64_outcomes std_alphabet StdEncoding [x3f; x21]).
  reflexivity.
Defined.

(** X13: what the comparison [m < n] does catch.  On a table of 62
    pairwise distinct symbols, when the symbols read so far have the
    value [n] and the next digit [d] makes [62 * n + d] leave the 64-bit
    range while [61 * n + d] stays inside it, [DecodeToUint64] returns
    the overflow error. *)
Theorem X13_DecodeToUint64_overflow_caught
    (alpha : list byte) (e : Encoding) (ds : list Z) (d : Z) (rest : list byte) :
  length alpha = 62%nat -> NoDup alpha -> New alpha = Ok e ->
  Forall is_digit ds -> is_digit d ->
  2 ^ 64 <= 62 * from_digits ds 0 + d ->
  61 * from_digits ds 0 + d < 2 ^ 64 ->
  let src := (sym e <$> ds) ++ sym e d :: rest in
  DecodeToUint64 e src = Ok (0, Some (Overflow src)).
Proof.
  intros Hlen Hnd HNew Hds Hd Hover Hin src.
  destruct (New_table_ok alpha e Hlen Hnd HNew) as [Htab _].
  pose proof (from_digits_bound ds Hds) as [Hn0 _].
  unfold is_digit in Hd.
  unfold DecodeToUint64. unfold src at 2.
  rewrite (DecodeToUint64_loop_app e src _ ds Htab Hds 0) by lia.
  cbn [DecodeToUint64_loop].
  rewrite (decodeMap_sym e Htab) by exact Hd. cbn [mbind result_bind].
  rewrite b2z_z2b by lia.
  destruct (Z.ltb_spec d 0); [lia|].
  set (n := from_digits ds 0) in *.
  assert (Hm : wrap64 (n * radix + d) = 62 * n + d - 2 ^ 64).
  { unfold wrap64, radix.
    replace (n * 62 + d) with (62 * n + d - 2 ^ 64 + 1 * 2 ^ 64) by lia.
    rewrite Z.mod_add by lia. apply Z.mod_small. lia. }
  rewrite Hm. destruct (Z.ltb_spec (62 * n + d - 2 ^ 64) n); [reflexivity|lia].
Qed.

Lemma X13_witness :
  let src := (sym StdEncoding <$> [21; 60; 42; 17; 36; 1; 6; 10; 17; 34])
             ++ sym StdEncoding 16 :: [] in
  DecodeToUint64 StdEncoding src = Ok (0, Some (Overflow src)).
Proof.
  apply (X13_DecodeToUint64_overflow_caught std_alphabet StdEncoding
           [21; 60; 42; 17; 36; 1; 6; 10; 17; 34] 16 []).
  - reflexivity.
  - exact std_alphabet_NoDup.
  - reflexivity.
  - repeat (apply Forall_cons_2; [unfold is_digit; lia|]). apply Forall_nil_2.
  - unfold is_digit. lia.
  - vm_compute. discriminate.
  - vm_compute. reflexivity.
Defined.

(** ** The arbitrary-precision decoder *)

Lemma to_digits_from_digits (ds : list Z) :
  Forall is_digit ds -> head ds <> Some 0 ->
  to_digits (from_digits ds 0) = reverse ds.
Proof.
  induction ds as [|d ds IH] using rev_ind; intros Hds Hhead.
  - apply to_digits_nonpos. reflexivity.
  - apply Forall_app in Hds as [Hds Hd]. apply Forall_cons in Hd as [Hd _].
    unfold is_digit in Hd.
    rewrite from_digits_app, reverse_snoc.
    change (from_digits [d] (from_digits ds 0)) with (from_digits ds 0 * 62 + d).
    pose proof (from_digits_bound ds Hds) as [Hn0 _].
    destruct ds as [|d0 ds].
    + simpl in *. assert (d <> 0) by (intros ->; by apply Hhead).
      rewrite to_digits_pos by lia.
      rewrite Z.mod_small, Z.div_small by lia.
      by rewrite to_digits_nonpos.
    + assert (Hh : head (d0 :: ds) <> Some 0) by exact Hhead.
      specialize (IH Hds Hh).
      assert (Hpos : 0 < from_digits (d0 :: ds) 0).
      { destruct (Z_le_gt_dec (from_digits (d0 :: ds) 0) 0) as [Hle|Hgt]; [|lia].
        rewrite to_digits_nonpos in IH by assumption.
        rewrite reverse_cons in IH. by destruct (reverse ds). }
      rewrite to_digits_pos by lia.
      rewrite Z.add_comm, Z.mod_add, Z.div_add by lia.
      rewrite Z.mod_small, Z.div_small by lia.
      rewrite Z.add_0_l, IH. reflexivity.
Qed.

Lemma alphabet_digits (e : Encoding) (s : list byte) :
  table_ok e ->
  Forall (fun c => c ∈ alphabet e) s ->
  exists ds, Forall is_digit ds /\ s = sym e <$> ds.
Proof.
  intros Htab. induction 1 as [|c s Hc _ (ds & Hds & ->)].
  - exists []. split; [constructor|reflexivity].
  - apply list_elem_of_lookup_1 in Hc as [i Hi].
    pose proof (lookup_lt_Some _ _ _ Hi) as Hlt.
    rewrite (ok_alphabet_length e Htab) in Hlt.
    exists (Z.of_nat i :: ds). split.
    + constructor; [unfold is_digit; lia|assumption].
    + rewrite fmap_cons. f_equal. unfold sym. by rewrite Nat2Z.id, Hi.
Qed.

Lemma split_zero_digits (ds : list Z) :
  exists (k : nat) (ds' : list Z),
    ds = replicate k 0 ++ ds' /\ head ds' <> Some 0.
Proof.
  induction ds as [|d ds (k & ds' & -> & Hh)].
  - exists 0%nat, []. split; [reflexivity|discriminate].
  - destruct (Z.eq_dec d 0) as [->|Hd].
    + exists (S k), ds'. split; [reflexivity|assumption].
    + exists 0%nat, (d :: replicate k 0 ++ ds'). split; [reflexivity|].
      simpl. intros [= ->]. by apply Hd.
Qed.

Lemma SetBytes_zeros (k : nat) (t : list byte) :
  SetBytes (replicate k x00 ++ t) = SetBytes t.
Proof.
  induction k as [|k IH]; [reflexivity|]. simpl replicate.
  rewrite <- app_comm_cons, SetBytes_cons, IH.
  change (b2z x00) with 0. lia.
Qed.

Lemma Bytes_head (x : Z) : head (Bytes x) <> Some x00.
Proof.
  pose proof (leading_zeros_Bytes x) as Hl.
  destruct (Bytes x) as [|c t]; [discriminate|].
  simpl in *. intros [= ->]. change (b2z x00 =? 0) with true in Hl. discriminate.
Qed.

(** X14: on a table of 62 pairwise distinct ASCII symbols,
    [DecodeString] of [k] zero symbols followed by digits that do not
    start with the zero digit is [k] zero bytes followed by the minimal
    big-endian bytes of the base-62 value of those digits. *)
Theorem X14_DecodeString_value
    (alpha : list byte) (e : Encoding) (k : nat) (ds : list Z) :
  length alpha = 62%nat -> NoDup alpha ->
  Forall (fun c => b2z c < 128) alpha ->
  New alpha = Ok e ->
  Forall is_digit ds -> head ds <> Some 0 ->
  DecodeString e (replicate k (alphabetIdx0 e) ++ (sym e <$> ds))
  = Ok (replicate k x00 ++ Bytes (from_digits ds 0)).
Proof.
  intros Hlen Hnd Hascii HNew Hds Hhead.
  destruct (New_table_ok alpha e Hlen Hnd HNew) as [Htab Halpha].
  rewrite <- Halpha in Hascii.
  by apply DecodeString_digits.
Qed.

Lemma X14_witness :
  DecodeString StdEncoding
    (replicate 2 (alphabetIdx0 StdEncoding) ++ (sym StdEncoding <$> [3; 0; 37]))
  = Ok (replicate 2 x00 ++ Bytes (from_digits [3; 0; 37] 0)).
Proof.
  apply (X14_DecodeString_value std_alphabet StdEncoding 2 [3; 0; 37]).
  - reflexivity.
  - exact std_alphabet_NoDup.
  - exact std_alphabet_ascii.
  - reflexivity.
  - repeat (apply Forall_cons_2; [unfold is_digit; lia|]). apply Forall_nil_2.
  - discriminate.
Defined.

(** X15: on a table of 62 pairwise distinct symbols, [DecodeString] of a
    string of ASCII bytes that holds a byte outside the alphabet, at any
    position, is the empty byte sequence. *)
Theorem X15_DecodeString_invalid_ascii
    (alpha : list byte) (e : Encoding) (s : list byte) :
  length alpha = 62%nat -> NoDup alpha -> New alpha = Ok e ->
  Forall (fun c => b2z c < 128) s ->
  Exists (fun c => c ∉ alphabet e) s ->
  DecodeString e s = Ok [].
Proof.
  intros Hlen Hnd HNew Hascii Hbad.
  destruct (New_table_ok alpha e Hlen Hnd HNew) as [Htab _].
  by apply DecodeString_invalid_ascii.
Qed.

Lemma X15_witness :
  DecodeString StdEncoding (String.list_byte_of_string "3mJr?") = Ok [].
Proof.
  apply (X15_DecodeString_invalid_ascii std_alphabet StdEncoding
           (String.list_byte_of_string "3mJr?")).
  - reflexivity.
  - exact std_alphabet_NoDup.
  - reflexivity.
  - repeat (apply Forall_cons_2; [reflexivity|]). apply Forall_nil_2.
  - do 4 apply Exists_cons_tl. apply Exists_cons_hd.
    apply (bool_decide_unpack _). vm_compute. exact I.
Defined.

(** X16: on a table of 62 pairwise distinct ASCII symbols, encoding what
    [DecodeString] returns for a string of symbols of the table gives
    the string back, so the two functions are inverse bijections
    between byte sequences and strings over the alphabet. *)
Theorem X16_EncodeToString_DecodeString
    (alpha : list byte) (e : Encoding) (s : list byte) :
  length alpha = 62%nat -> NoDup alpha ->
  Forall (fun c => b2z c < 128) alpha ->
  New alpha = Ok e ->
  Forall (fun c => c ∈ alphabet e) s ->
  DecodeString e s ≫= EncodeToString e = Ok s.
Proof.
  intros Hlen Hnd Hascii HNew Hs.
  destruct (New_table_ok alpha e Hlen Hnd HNew) as [Htab Halpha].
  rewrite <- Halpha in Hascii.
  destruct (alphabet_digits e s Htab Hs) as (ds & Hds & ->).
  destruct (split_zero_digits ds) as (k & ds' & -> & Hhead).
  apply Forall_app in Hds as [_ Hds'].
  rewrite fmap_app, fmap_replicate, (sym_zero e Htab).
  rewrite (DecodeString_digits e Htab Hascii k ds' Hds' Hhead).
  cbn [mbind result_bind].
  rewrite (EncodeToString_spec e (ok_alphabet_length e Htab)).
  rewrite leading_zeros_prefix by apply Bytes_head.
  pose proof (from_digits_bound ds' Hds') as [Hn0 _].
  rewrite SetBytes_zeros, SetBytes_Bytes by assumption.
  rewrite to_digits_from_digits by assumption.
  by rewrite reverse_involutive.
Qed.

Lemma X16_witness :
  DecodeString StdEncoding (String.list_byte_of_string "00qMin")
  ≫= EncodeToString StdEncoding
  = Ok (String.list_byte_of_string "00qMin").
Proof.
  apply (X16_EncodeToString_DecodeString std_alphabet StdEncoding
           (String.list_byte_of_string "00qMin")).
  - reflexivity.
  - exact std_alphabet_NoDup.
  - exact std_alphabet_ascii.
  - reflexivity.
  - repeat (apply Forall_cons_2;
            [apply (bool_decide_unpack _); vm_compute; exact I|]).
    apply Forall_nil_2.
Defined.

(** ** The test helpers *)

Lemma first_nonzero_suffix_None (b : list byte) :
  first_nonzero_suffix b = None -> b = replicate (length b) x00.
Proof.
  induction b as [|c b IH]; [reflexivity|]. simpl.
  destruct (Z.eqb_spec (b2z c) 0) as [Hc|Hc]; [|discriminate]. simpl.
  intros H. apply b2z_zero_iff in Hc. subst c. f_equal. by apply IH.
Qed.

(** X17: [removeLeadingZeros] cuts a prefix of zero bytes off its
    argument and keeps the big-endian value; what is left does not start
    with a zero byte, unless the argument is a non-empty run of zero
    bytes, of which the single byte [0x00] is left. *)
Theorem X17_removeLeadingZeros (b : list byte) :
  exists k : nat,
    b = replicate k x00 ++ removeLeadingZeros b /\
    SetBytes (removeLeadingZeros b) = SetBytes b /\
    (head (removeLeadingZeros b) <> Some x00 \/ removeLeadingZeros b = [x00]).
Proof.
  unfold removeLeadingZeros. rewrite first_nonzero_suffix_spec.
  destruct (drop (leading_zeros b) b) as [|c t] eqn:Hstrip.
  - assert (Hall : b = replicate (length b) x00).
    { apply first_nonzero_suffix_None. by rewrite first_nonzero_suffix_spec, Hstrip. }
    destruct b as [|c b]; simpl.
    + exists 0%nat. split; [reflexivity|]. split; [reflexivity|]. left. discriminate.
    + simpl in Hall. injection Hall as -> Hall.
      rewrite take_0. exists (length b).
      split; [|split; [|by right]].
      * rewrite <- replicate_S_end, replicate_S. by f_equal.
      * apply SetBytes_zero_iff in Hstrip. rewrite Hstrip. reflexivity.
  - exists (leading_zeros b). split; [|split].
    + rewrite <- Hstrip. symmetry. apply leading_zeros_restore.
    + rewrite <- Hstrip. apply SetBytes_strip.
    + left. rewrite <- Hstrip. apply strip_head.
Qed.

(** X18: for every unsigned 64-bit integer [n], [marshallUint64 n] has
    between 1 and 8 bytes and its big-endian value is [n]. *)
Theorem X18_marshallUint64 (n : Z) :
  0 <= n < 2 ^ 64 ->
  (1 <= length (marshallUint64 n) <= 8)%nat /\
  SetBytes (marshallUint64 n) = n.
Proof.
  intros Hn. rewrite marshallUint64_minimal by assumption.
  unfold minimal_big_endian. destruct (Z.eqb_spec n 0) as [->|Hne].
  - split; [cbn [length]; lia|reflexivity].
  - split; [|apply SetBytes_Bytes; lia].
    assert (Hnil : (1 <= length (Bytes n))%nat).
    { rewrite Bytes_pos, length_app by lia. cbn [length]. lia. }
    split; [exact Hnil|].
    pose proof (Bytes_SetBytes (PutUint64 n)) as HB.
    rewrite SetBytes_PutUint64 in HB by assumption.
    rewrite HB, length_drop. change (length (PutUint64 n)) with 8%nat. lia.
Qed.

Lemma X18_witness :
  (1 <= length (marshallUint64 65536) <= 8)%nat /\
  SetBytes (marshallUint64 65536) = 65536.
Proof. apply (X18_marshallUint64 65536). lia. Defined.

(** * The line wrapper *)

(** ** Runes and [IndexFunc] *)

Lemma accept_range_bounds (p0 sz lo hi : Z) :
  accept_range p0 = Some (sz, lo, hi) -> 2 <= sz <= 4 /\ 128 <= lo.
Proof.
  unfold accept_range.
  repeat match goal with
         | |- context [if ?b then _ else _] => destruct b
         end; intros [= <- <- <-] || discriminate; lia.
Qed.

Lemma is_cont_ge (c : byte) : is_cont c = true -> 128 <= b2z c.
Proof. unfold is_cont. intros H. apply andb_prop in H as [H _]. lia. Qed.

(** A rune that starts with a byte of 128 or above is made of such bytes
    only, and all of them are there. *)
Lemma DecodeRune_bytes (c : byte) (t : list byte) :
  128 <= b2z c ->
  let w := Z.to_nat (DecodeRune (c :: t)).2 in
  (1 <= w <= length (c :: t))%nat /\
  Forall (fun x => 128 <= b2z x) (take w (c :: t)).
Proof.
  intros Hc. cbn zeta. unfold DecodeRune.
  assert (Hone : (1 <= Z.to_nat 1 <= length (c :: t))%nat /\
                 Forall (fun x => 128 <= b2z x) (take (Z.to_nat 1) (c :: t))).
  { split; [simpl; lia|]. simpl. by repeat constructor. }
  destruct (accept_range (b2z c)) as [[[sz lo] hi]|] eqn:Ha; [|exact Hone].
  apply accept_range_bounds in Ha as [Hsz Hlo].
  destruct (Z.ltb_spec (Z.of_nat (length (c :: t))) sz); [exact Hone|].
  destruct t as [|b1 t]; [exact Hone|].
  destruct (Z.ltb_spec (b2z b1) lo); [exact Hone|].
  destruct (Z.ltb_spec hi (b2z b1)); [exact Hone|]. cbn [orb].
  destruct (Z.leb_spec sz 2).
  { split; [simpl; lia|]. simpl. repeat constructor; lia. }
  destruct t as [|b2 t]; [exact Hone|].
  destruct (is_cont b2) eqn:E2; [|exact Hone]. cbn [negb].
  apply is_cont_ge in E2.
  destruct (Z.leb_spec sz 3).
  { split; [simpl; lia|]. simpl. repeat constructor; lia. }
  destruct t as [|b3 t]; [exact Hone|].
  destruct (is_cont b3) eqn:E3; [|exact Hone]. cbn [negb].
  apply is_cont_ge in E3.
  split; [simpl; lia|]. simpl. repeat constructor; lia.
Qed.

Lemma rune_at_bytes (c : byte) (t : list byte) :
  let w := Z.to_nat (rune_at (c :: t)).2 in
  (1 <= w <= length (c :: t))%nat /\
  Forall (fun x => b2z x < 128 -> x = c /\ (rune_at (c :: t)).1 = b2z c)
         (take w (c :: t)).
Proof.
  cbn zeta. unfold rune_at.
  destruct (Z.ltb_spec (b2z c) 128) as [Hlt|Hge].
  - split; [simpl; lia|]. simpl. by repeat constructor.
  - destruct (DecodeRune_bytes c t Hge) as [Hw Hall].
    split; [exact Hw|]. eapply Forall_impl; [exact Hall|].
    intros x Hx Hx'. exfalso. simpl in Hx. lia.
Qed.

(** The bytes before the index [indexFunc] returns, or all bytes when it
    returns -1: the ASCII ones among them have failed the test. *)
Lemma indexFunc_before (f : Z -> bool) (truth : bool) (n : nat) :
  forall (s : list byte) (start : Z),
    (length s <= n)%nat -> 0 <= start ->
    let r := indexFunc f truth s start in
    let k := if r =? -1 then length s else Z.to_nat (r - start) in
    Forall (fun c => b2z c < 128 -> Bool.eqb (f (b2z c)) truth = false) (take k s).
Proof.
  induction n as [|n IH]; intros s start Hlen Hstart; cbn zeta.
  - destruct s; [|simpl in Hlen; lia]. rewrite take_nil. constructor.
  - rewrite indexFunc_turn. destruct s as [|c t]; [rewrite take_nil; constructor|].
    destruct (Bool.eqb (f (rune_at (c :: t)).1) truth) eqn:Ef.
    + destruct (Z.eqb_spec start (-1)); [lia|].
      rewrite Z.sub_diag. constructor.
    + destruct (rune_at_bytes c t) as [Hw Hall]. cbn zeta in Hw, Hall.
      set (w := Z.to_nat (rune_at (c :: t)).2) in *.
      assert (Hwz : (rune_at (c :: t)).2 = Z.of_nat w).
      { pose proof (rune_at_width c t). unfold w. lia. }
      rewrite Hwz.
      set (s' := drop w (c :: t)).
      assert (Hs' : (length s' <= n)%nat).
      { unfold s'. rewrite length_drop. simpl in *. lia. }
      assert (Hls : (length (c :: t) = w + length s')%nat).
      { unfold s'. rewrite length_drop. lia. }
      specialize (IH s' (start + Z.of_nat w) Hs' ltac:(lia)). cbn zeta in IH.
      destruct (indexFunc_found f truth n s' (start + Z.of_nat w) Hs' ltac:(lia))
        as [Hm|[Hb _]].
      * rewrite Hm in IH |- *. change (-1 =? -1) with true in IH |- *.
        cbv iota in IH |- *.
        rewrite take_ge in IH by lia. rewrite take_ge by lia.
        rewrite <- (take_drop w (c :: t)). apply Forall_app. split; [|exact IH].
        eapply Forall_impl; [exact Hall|]. intros x Hx Hx'.
        destruct (Hx Hx') as [-> Hr]. rewrite <- Hr. exact Ef.
      * set (r := indexFunc f truth s' (start + Z.of_nat w)) in *.
        destruct (Z.eqb_spec r (-1)); [lia|].
        replace (Z.to_nat (r - start))
          with (w + Z.to_nat (r - (start + Z.of_nat w)))%nat by lia.
        rewrite <- take_take_drop.
        apply Forall_app. split.
        -- eapply Forall_impl; [exact Hall|]. intros x Hx Hx'.
           destruct (Hx Hx') as [-> Hr]. rewrite <- Hr. exact Ef.
        -- exact IH.
Qed.

Lemma slice_Ok {A} (l : list A) (lo hi : Z) :
  0 <= lo <= hi -> hi <= Z.of_nat (length l) ->
  slice l lo hi = Ok (take (Z.to_nat (hi - lo)) (drop (Z.to_nat lo) l)).
Proof.
  intros H1 H2. unfold slice.
  destruct (Z.leb_spec 0 lo); [|lia].
  destruct (Z.leb_spec lo hi); [|lia].
  destruct (Z.leb_spec hi (Z.of_nat (length l))); [reflexivity|lia].
Qed.

(** Where a token or a gap that starts at [i] ends: at the first rune of
    the rest of the line that passes the test, or at the end of the line. *)
Lemma IndexFunc_end (f : Z -> bool) (src : list byte) (i : Z) :
  0 <= i <= Z.of_nat (length src) ->
  let s := drop (Z.to_nat i) src in
  let j0 := IndexFunc s f in
  let j := if 0 <=? j0 then j0 + i else Z.of_nat (length src) in
  i <= j <= Z.of_nat (length src) /\
  Forall (fun c => b2z c < 128 -> f (b2z c) = false) (take (Z.to_nat (j - i)) s).
Proof.
  intros Hi. cbn zeta. unfold IndexFunc.
  set (s := drop (Z.to_nat i) src).
  assert (Hs : Z.of_nat (length s) = Z.of_nat (length src) - i).
  { unfold s. rewrite length_drop. lia. }
  pose proof (indexFunc_before f true (length s) s 0 ltac:(lia) ltac:(lia)) as Hb.
  cbn zeta in Hb.
  assert (Hall : forall k,
    Forall (fun c => b2z c < 128 -> Bool.eqb (f (b2z c)) true = false) (take k s) ->
    Forall (fun c => b2z c < 128 -> f (b2z c) = false) (take k s)).
  { intros k Hk. eapply Forall_impl; [exact Hk|]. intros c Hc Hlt.
    specialize (Hc Hlt). by destruct (f (b2z c)). }
  destruct (indexFunc_found f true (length s) s 0 ltac:(lia) ltac:(lia))
    as [Hm|[Hr _]].
  - rewrite Hm in Hb |- *. change (-1 =? -1) with true in Hb. cbv iota in Hb.
    change (0 <=? -1) with false. cbv iota. split; [lia|].
    apply Hall. replace (Z.to_nat (Z.of_nat (length src) - i)) with (length s) by lia.
    exact Hb.
  - set (r := indexFunc f true s 0) in *.
    destruct (Z.eqb_spec r (-1)); [lia|].
    destruct (Z.leb_spec 0 r); [|lia]. split; [lia|].
    apply Hall. replace (Z.to_nat (r + i - i)) with (Z.to_nat (r - 0)) by lia.
    exact Hb.
Qed.

(** ** One turn of the loop of [processLine] *)

(** A turn that starts inside the line cuts a token and the gap after it
    off the rest of the line, hands the token to the callback and appends
    what it returns and the gap to the result. *)
Lemma processLine_turn_cases {E}
    (f : list byte -> result (list byte * option E))
    (src : list byte) (i : Z) (res : list byte) :
  0 <= i <= Z.of_nat (length src) ->
  exists (tok gap : list byte) (j i' : Z),
    j = i + Z.of_nat (length tok) /\ i' = j + Z.of_nat (length gap) /\
    i' <= Z.of_nat (length src) /\
    drop (Z.to_nat i) src = tok ++ gap ++ drop (Z.to_nat i') src /\
    token_ok tok /\ gap_ok gap /\
    processLine_turn f src i res =
      match f tok with
      | Panic => Panic
      | Ok (_, Some err) => Ok (Return [] (Some err))
      | Ok (got, None) =>
          if i' =? Z.of_nat (length src)
          then Ok (Return (res ++ got ++ gap) None)
          else Ok (Next i' j (res ++ got ++ gap))
      end.
Proof.
  intros Hi. unfold processLine_turn.
  rewrite slice_from_Ok by lia. cbn [mbind result_bind].
  destruct (IndexFunc_end IsSpace src i Hi) as [Hj Htok]. cbn zeta in Hj, Htok.
  set (j := if 0 <=? IndexFunc (drop (Z.to_nat i) src) IsSpace
            then IndexFunc (drop (Z.to_nat i) src) IsSpace + i
            else Z.of_nat (length src)) in *.
  rewrite slice_Ok by lia. cbn [mbind result_bind].
  set (tok := take (Z.to_nat (j - i)) (drop (Z.to_nat i) src)) in *.
  assert (Hltok : Z.of_nat (length tok) = j - i).
  { unfold tok. rewrite length_take, length_drop. lia. }
  assert (Hj0 : 0 <= j <= Z.of_nat (length src)) by lia.
  destruct (IndexFunc_end (fun r => negb (IsSpace r)) src j Hj0) as [Hi' Hgap].
  cbn zeta in Hi', Hgap.
  set (i' := if 0 <=? IndexFunc (drop (Z.to_nat j) src) (fun r => negb (IsSpace r))
             then IndexFunc (drop (Z.to_nat j) src) (fun r => negb (IsSpace r)) + j
             else Z.of_nat (length src)) in *.
  set (gap := take (Z.to_nat (i' - j)) (drop (Z.to_nat j) src)) in *.
  assert (Hlgap : Z.of_nat (length gap) = i' - j).
  { unfold gap. rewrite length_take, length_drop. lia. }
  exists tok, gap, j, i'.
  split; [lia|]. split; [lia|]. split; [lia|]. split; [|split; [|split]].
  - unfold tok, gap.
    rewrite <- (take_drop (Z.to_nat (j - i)) (drop (Z.to_nat i) src)) at 1.
    f_equal. rewrite drop_drop.
    replace (Z.to_nat i + Z.to_nat (j - i))%nat with (Z.to_nat j) by lia.
    rewrite <- (take_drop (Z.to_nat (i' - j)) (drop (Z.to_nat j) src)) at 1.
    f_equal. rewrite drop_drop. f_equal. lia.
  - exact Htok.
  - unfold gap_ok. eapply Forall_impl; [exact Hgap|]. intros c Hc Hlt.
    specialize (Hc Hlt). by destruct (IsSpace (b2z c)).
  - destruct (f tok) as [[got [err|]]|]; cbn [mbind result_bind fst snd];
      [reflexivity| |reflexivity].
    destruct (Z.eqb_spec j (Z.of_nat (length src))) as [Hend|Hmore].
    + assert (Hie : i' = Z.of_nat (length src)) by lia.
      rewrite Hie, Z.eqb_refl.
      assert (Hg : gap = []).
      { apply length_zero_iff_nil. lia. }
      rewrite Hg, app_nil_r. reflexivity.
    + rewrite slice_from_Ok by lia. cbn [mbind result_bind].
      rewrite slice_Ok by lia. cbn [mbind result_bind].
      fold i'. fold gap. rewrite <- !app_assoc.
      destruct (Z.eqb_spec i' (Z.of_nat (length src))); reflexivity.
Qed.

(** ** The loop of [processLine] *)

Lemma processLine_loop_turn {E} (f : list byte -> result (list byte * option E))
    (src : list byte) (i j : Z) (res : list byte) :
  processLine_loop f src i j res =
  if Z_lt_dec j (Z.of_nat (length src)) then
    match processLine_turn f src i res with
    | Panic => Panic
    | Ok (Return out err) => Ok (out, err)
    | Ok (Next i' j' res') => processLine_loop f src i' j' res'
    end
  else Ok (res, None).
Proof.
  rewrite processLine_loop_equation_1. unfold processLine_loop_clause_1.
  destruct (Z_lt_dec j (Z.of_nat (length src))); [|reflexivity].
  unfold processLine_loop_unfold_clause_1, inspect.
  generalize (@eq_refl _ (processLine_turn f src i res)).
  generalize (processLine_turn f src i res) at 2 4 5.
  intros t Ht. destruct t as [[out err|i' j' res']|]; reflexivity.
Qed.

#[global] Opaque processLine_loop.

(** With a callback that never fails, the loop consumes the rest of the
    line piece by piece. *)
Lemma processLine_loop_pieces {E}
    (f : list byte -> result (list byte * option E))
    (g : list byte -> list byte) (src : list byte) :
  (forall tok, f tok = Ok (g tok, None)) ->
  forall (n : nat) (i j : Z) (res : list byte),
    0 <= i <= Z.of_nat (length src) -> j < Z.of_nat (length src) ->
    Z.of_nat (length src) - i < Z.of_nat n ->
    exists ps : list (list byte * list byte),
      drop (Z.to_nat i) src = reassemble (fun tok => tok) ps /\
      Forall (fun p => token_ok p.1 /\ gap_ok p.2) ps /\
      processLine_loop f src i j res = Ok (res ++ reassemble g ps, None).
Proof.
  intros Hf. induction n as [|n IH]; intros i j res Hi Hj Hn; [lia|].
  rewrite processLine_loop_turn.
  destruct (Z_lt_dec j (Z.of_nat (length src))); [|lia].
  destruct (processLine_turn_cases f src i res Hi)
    as (tok & gap & j1 & i1 & Hj1 & Hi1 & Hle & Hsplit & Htok & Hgap & Hturn).
  rewrite Hf in Hturn.
  destruct (Z.eqb_spec i1 (Z.of_nat (length src))) as [Hend|Hmore].
  - rewrite Hturn. exists [(tok, gap)]. split; [|split].
    + rewrite Hsplit. cbn [reassemble]. rewrite app_nil_r.
      rewrite drop_ge by lia. by rewrite app_nil_r.
    + repeat constructor; assumption.
    + cbn [reassemble]. by rewrite app_nil_r.
  - pose proof (processLine_turn_Next f src i res _ _ _ Hturn) as Hb.
    rewrite Hturn.
    destruct (IH i1 j1 (res ++ g tok ++ gap) ltac:(lia) ltac:(lia) ltac:(lia))
      as (ps & Hps & Hok & Hloop).
    exists ((tok, gap) :: ps). split; [|split].
    + rewrite Hsplit. cbn [reassemble]. by rewrite Hps.
    + constructor; [split; assumption|exact Hok].
    + rewrite Hloop. cbn [reassemble]. by rewrite <- !app_assoc.
Qed.

(** An error the loop returns is the callback's, and comes alone. *)
Lemma processLine_loop_error {E}
    (f : list byte -> result (list byte * option E)) (src : list byte) :
  forall (n : nat) (i j : Z) (res out : list byte) (err : E),
    0 <= i <= Z.of_nat (length src) ->
    Z.of_nat (length src) - i < Z.of_nat n ->
    processLine_loop f src i j res = Ok (out, Some err) ->
    out = [] /\ exists tok got, f tok = Ok (got, Some err).
Proof.
  induction n as [|n IH]; intros i j res out err Hi Hn; [lia|].
  rewrite processLine_loop_turn.
  destruct (Z_lt_dec j (Z.of_nat (length src))); [|discriminate].
  destruct (processLine_turn_cases f src i res Hi)
    as (tok & gap & j1 & i1 & Hj1 & Hi1 & Hle & Hsplit & Htok & Hgap & Hturn).
  destruct (f tok) as [[got [e|]]|] eqn:Ef.
  - rewrite Hturn. intros [= <- <-]. split; [reflexivity|]. by exists tok, got.
  - destruct (Z.eqb_spec i1 (Z.of_nat (length src))) as [Hend|Hmore].
    + rewrite Hturn. discriminate.
    + pose proof (processLine_turn_Next f src i res _ _ _ Hturn) as Hb.
      rewrite Hturn. apply IH; lia.
  - rewrite Hturn. discriminate.
Qed.

(** Every slice of the loop is within the line: a panic is the
    callback's. *)
Lemma processLine_loop_no_panic {E}
    (f : list byte -> result (list byte * option E)) (src : list byte) :
  (forall tok, f tok <> Panic) ->
  forall (n : nat) (i j : Z) (res : list byte),
    0 <= i <= Z.of_nat (length src) ->
    Z.of_nat (length src) - i < Z.of_nat n ->
    processLine_loop f src i j res <> Panic.
Proof.
  intros Hf. induction n as [|n IH]; intros i j res Hi Hn; [lia|].
  rewrite processLine_loop_turn.
  destruct (Z_lt_dec j (Z.of_nat (length src))); [|discriminate].
  destruct (processLine_turn_cases f src i res Hi)
    as (tok & gap & j1 & i1 & Hj1 & Hi1 & Hle & Hsplit & Htok & Hgap & Hturn).
  specialize (Hf tok).
  destruct (f tok) as [[got [e|]]|] eqn:Ef; [| |congruence].
  - rewrite Hturn. discriminate.
  - destruct (Z.eqb_spec i1 (Z.of_nat (length src))) as [Hend|Hmore].
    + rewrite Hturn. discriminate.
    + pose proof (processLine_turn_Next f src i res _ _ _ Hturn) as Hb.
      rewrite Hturn. apply IH; lia.
Qed.

Lemma processLine_pieces {E}
    (f : list byte -> result (list byte * option E))
    (g : list byte -> list byte) (src : list byte) :
  (forall tok, f tok = Ok (g tok, None)) ->
  exists ps : list (list byte * list byte),
    src = reassemble (fun tok => tok) ps /\
    Forall (fun p => token_ok p.1 /\ gap_ok p.2) ps /\
    processLine src f = Ok (reassemble g ps, None).
Proof.
  intros Hf. unfold processLine.
  destruct src as [|c t].
  - exists []. split; [reflexivity|]. split; [constructor|].
    rewrite processLine_loop_turn. reflexivity.
  - destruct (processLine_loop_pieces f g (c :: t) Hf (S (S (length t))) 0 0 [])
      as (ps & Hps & Hok & Hloop); [cbn [length]; lia..|].
    exists ps. split; [exact Hps|]. split; [exact Hok|exact Hloop].
Qed.

Lemma reassemble_id_Forall (P : byte -> Prop) (ps : list (list byte * list byte)) :
  Forall P (reassemble (fun tok => tok) ps) ->
  Forall (fun p => Forall P p.1 /\ Forall P p.2) ps.
Proof.
  induction ps as [|[tok gap] ps IH]; cbn [reassemble]; intros H; [constructor|].
  apply Forall_app in H as [H1 H]. apply Forall_app in H as [H2 H].
  constructor; [split; assumption|by apply IH].
Qed.

Lemma encode_token_total (E : Type) (tok : list byte) :
  encode_token E tok = Ok (encode_total tok, None).
Proof.
  unfold encode_token, encode_total.
  rewrite (EncodeToString_spec StdEncoding std_alphabet_length).
  reflexivity.
Qed.

Lemma encode_total_alphabet (tok : list byte) :
  Forall (fun c => c ∈ alphabet StdEncoding) (encode_total tok).
Proof.
  unfold encode_total.
  rewrite (EncodeToString_spec StdEncoding std_alphabet_length).
  apply Forall_app. split.
  - apply Forall_replicate.
    apply (list_elem_of_lookup_2 _ 0%nat). by apply (New_idx0 std_alphabet).
  - apply Forall_fmap. eapply Forall_impl.
    + apply Forall_reverse, to_digits_is_digit.
    + intros d Hd. by apply sym_elem.
Qed.

Lemma reassemble_encode_ascii (ps : list (list byte * list byte)) :
  Forall (fun c => b2z c < 128) (reassemble (fun tok => tok) ps) ->
  Forall (fun p => token_ok p.1 /\ gap_ok p.2) ps ->
  Forall (fun c => c ∈ alphabet StdEncoding \/ IsSpace (b2z c) = true)
         (reassemble encode_total ps).
Proof.
  intros Hascii Hok. apply reassemble_id_Forall in Hascii.
  induction ps as [|[tok gap] ps IH]; cbn [reassemble]; [constructor|].
  inversion Hascii as [|? ? [_ Hg] Hrest]; subst.
  inversion Hok as [|? ? [_ Hgap] Hok']; subst. cbn [fst snd] in *.
  apply Forall_app. split.
  - eapply Forall_impl; [apply encode_total_alphabet|]. intros c Hc. by left.
  - apply Forall_app. split; [|by apply IH].
    unfold gap_ok in Hgap. rewrite Forall_forall in Hgap, Hg.
    apply Forall_forall. intros c Hc. right. apply Hgap; [exact Hc|]. by apply Hg.
Qed.

(** X19: with a callback that never fails, [processLine] cuts the line
    into tokens, each followed by a gap, hands every token to the callback
    and returns what the callback gave for the tokens with the gaps between
    them as they were. No ASCII byte of a token is white space; every ASCII
    byte of a gap is. *)
Theorem X19_processLine_pieces {E}
    (f : list byte -> result (list byte * option E))
    (g : list byte -> list byte) (src : list byte) :
  (forall tok, f tok = Ok (g tok, None)) ->
  exists ps : list (list byte * list byte),
    src = reassemble (fun tok => tok) ps /\
    Forall (fun p => token_ok p.1 /\ gap_ok p.2) ps /\
    processLine src f = Ok (reassemble g ps, None).
Proof. apply processLine_pieces. Qed.

Lemma X19_witness :
  exists ps : list (list byte * list byte),
    [x61; x62; x20; x63] = reassemble (fun tok => tok) ps /\
    Forall (fun p => token_ok p.1 /\ gap_ok p.2) ps /\
    processLine [x61; x62; x20; x63] (fun tok => Ok (reverse tok, @None unit))
    = Ok (reassemble reverse ps, None).
Proof.
  apply (X19_processLine_pieces (fun tok => Ok (reverse tok, @None unit)) reverse).
  intros tok. reflexivity.
Defined.

(** X20: with the callback that returns its token, [processLine] returns
    the line unchanged. *)
Theorem X20_processLine_identity (E : Type) (src : list byte) :
  processLine src (fun tok => Ok (tok, @None E)) = Ok (src, None).
Proof.
  destruct (processLine_pieces (fun tok => Ok (tok, @None E)) (fun tok => tok) src)
    as (ps & Hps & _ & Hrun); [reflexivity|].
  rewrite Hrun, <- Hps. reflexivity.
Qed.

(** X21: when [processLine] returns an error, the error is one the
    callback returned for some token, and no output comes with it. *)
Theorem X21_processLine_error {E}
    (f : list byte -> result (list byte * option E))
    (src out : list byte) (err : E) :
  processLine src f = Ok (out, Some err) ->
  out = [] /\ exists tok got, f tok = Ok (got, Some err).
Proof.
  unfold processLine. intros H.
  apply (processLine_loop_error f src (S (length src)) 0 0 [] out err); [lia|lia|exact H].
Qed.

Lemma X21_witness :
  @nil byte = [] /\
  exists tok got,
    (fun t : list byte => if decide (t = [x62]) then Ok (t, Some 7) else Ok (t, None)) tok
    = Ok (got, Some 7).
Proof.
  apply (X21_processLine_error
           (fun t : list byte => if decide (t = [x62]) then Ok (t, Some 7) else Ok (t, None))
           [x61; x20; x62; x20; x63] [] 7).
  vm_compute. reflexivity.
Defined.

(** X22: when the callback returns for every token, so does
    [processLine]: none of its slices is out of range. *)
Theorem X22_processLine_returns {E}
    (f : list byte -> result (list byte * option E)) (src : list byte) :
  (forall tok, exists r, f tok = Ok r) ->
  exists r, processLine src f = Ok r.
Proof.
  intros Hf. unfold processLine.
  destruct (processLine_loop f src 0 0 []) as [r|] eqn:Hrun; [by exists r|].
  exfalso. revert Hrun.
  apply (processLine_loop_no_panic f src) with (n := S (length src)); [|lia|lia].
  intros tok. destruct (Hf tok) as [r ->]. discriminate.
Qed.

Lemma X22_witness :
  exists r, processLine [x20; xc2; xa0; x61; xff]
                        (fun tok => Ok (tok ++ tok, @None unit)) = Ok r.
Proof.
  apply (X22_processLine_returns (fun tok => Ok (tok ++ tok, @None unit))).
  intros tok. eexists. reflexivity.
Defined.

(** X23: in encode mode, the callback of [runInternal] being
    [EncodeToString] on the standard table, [processLine] never fails,
    whatever the line; and for a line of ASCII bytes every byte of its
    output is a symbol of the standard alphabet or white space. *)
Theorem X23_processLine_encode_ascii (E : Type) (src : list byte) :
  exists out,
    processLine src (encode_token E) = Ok (out, None) /\
    (Forall (fun c => b2z c < 128) src ->
     Forall (fun c => c ∈ alphabet StdEncoding \/ IsSpace (b2z c) = true) out).
Proof.
  destruct (processLine_pieces (encode_token E) encode_total src (encode_token_total E))
    as (ps & Hps & Hok & Hrun).
  exists (reassemble encode_total ps). split; [exact Hrun|].
  intros Hascii.
  apply reassemble_encode_ascii; [by rewrite <- Hps|exact Hok].
Qed.

Lemma X23_witness :
  exists out,
    processLine [x2d; x31; x20; x61; x62; x63; x09] (encode_token unit) = Ok (out, None) /\
    Forall (fun c => c ∈ alphabet StdEncoding \/ IsSpace (b2z c) = true) out.
Proof.
  destruct (X23_processLine_encode_ascii unit [x2d; x31; x20; x61; x62; x63; x09])
    as (out & Hrun & Hall).
  exists out. split; [exact Hrun|]. apply Hall.
  repeat (apply Forall_cons_2; [reflexivity|]). apply Forall_nil_2.
Defined.

(** * The zero symbol as a string *)

(** A byte from 0x80 on converted to a string is two bytes: a lead byte
    0xC2 or 0xC3 and a continuation byte. *)
Lemma string_of_byte_high (b : byte) :
  128 <= b2z b ->
  exists c1 c2, string_of_byte b = [c1; c2] /\
                192 <= b2z c1 /\ 128 <= b2z c2 < 192.
Proof.
  intros Hb.
  destruct b;
    try (exfalso; vm_compute in Hb; apply Hb; reflexivity);
    (do 2 eexists; split; [reflexivity|];
     vm_compute; repeat split; discriminate).
Qed.

(** What [decodeMap] holds for a byte: a value that is 0 for the zero
    symbol only. *)
Lemma decodeMap_zero (e : Encoding) (c : byte) :
  table_ok e ->
  exists v, index (decodeMap e) (b2z c) = Ok v /\
            (b2z v = 0 -> c = alphabetIdx0 e).
Proof.
  intros table. pose proof (b2z_range c) as Hc.
  destruct (decide (c ∈ alphabet e)) as [Hin|Hout].
  - apply list_elem_of_lookup in Hin as [i Hi].
    pose proof (lookup_lt_Some _ _ _ Hi) as Hlt.
    rewrite (ok_alphabet_length e table) in Hlt.
    exists (z2b (Z.of_nat i)). split.
    + apply index_Ok; [lia|]. rewrite <- b2n_b2z. by apply (ok_inverse e table).
    + rewrite b2z_z2b by lia. intros Hzero.
      assert (i = 0%nat) as -> by lia.
      pose proof (ok_idx0 e table) as H0. congruence.
  - exists xff. split.
    + apply index_Ok; [lia|]. rewrite <- b2n_b2z. by apply (ok_invalid e table).
    + intros Hzero. vm_compute in Hzero. discriminate.
Qed.

(** X24: on a table of 62 pairwise distinct symbols whose zero symbol is a
    byte from 0x80 on, [EncodeUint64 0] is not that symbol but the two
    bytes of its UTF-8 encoding as a code point, and [DecodeToUint64]
    reads them back, with no error, as a value that is not 0. *)
Theorem X24_EncodeUint64_zero_high_symbol (alpha : list byte) (e : Encoding) :
  length alpha = 62%nat -> NoDup alpha -> New alpha = Ok e ->
  128 <= b2z (alphabetIdx0 e) ->
  exists (s : list byte) (v : Z),
    EncodeUint64 e 0 = Ok s /\ length s = 2%nat /\
    DecodeToUint64 e s = Ok (v, None) /\ v <> 0.
Proof.
  intros Hlen Hnd HNew Hhigh.
  destruct (New_table_ok alpha e Hlen Hnd HNew) as [Htab _].
  destruct (string_of_byte_high _ Hhigh) as (c1 & c2 & Hs & Hc1 & Hc2).
  destruct (decodeMap_zero e c1 Htab) as (v1 & Hv1 & Hz1).
  destruct (decodeMap_zero e c2 Htab) as (v2 & Hv2 & Hz2).
  pose proof (b2z_range v1) as Hr1. pose proof (b2z_range v2) as Hr2.
  exists [c1; c2], (b2z v1 * 62 + b2z v2).
  split; [|split; [reflexivity|split]].
  - unfold EncodeUint64. change (0 =? 0) with true. cbv iota. by rewrite Hs.
  - unfold DecodeToUint64. cbn [DecodeToUint64_loop].
    rewrite Hv1. cbn [mbind result_bind].
    destruct (Z.ltb_spec (b2z v1) 0); [lia|].
    unfold radix. change (0 * 62 + b2z v1) with (b2z v1).
    unfold wrap64. rewrite (Z.mod_small (b2z v1)) by lia.
    destruct (Z.ltb_spec (b2z v1) 0); [lia|].
    rewrite Hv2. cbn [mbind result_bind].
    destruct (Z.ltb_spec (b2z v2) 0); [lia|].
    rewrite (Z.mod_small (b2z v1 * 62 + b2z v2)) by lia.
    destruct (Z.ltb_spec (b2z v1 * 62 + b2z v2) (b2z v1)); [lia|].
    reflexivity.
  - intros Hzero.
    assert (H1 : b2z v1 = 0) by lia. assert (H2 : b2z v2 = 0) by lia.
    specialize (Hz1 H1). specialize (Hz2 H2). subst c1.
    rewrite Hz2 in Hc2. lia.
Qed.

Lemma X24_witness :
  exists (s : list byte) (v : Z),
    EncodeUint64 (match New (xff :: drop 1 std_alphabet) with
                  | Ok e => e
                  | Panic => zero_Encoding
                  end) 0 = Ok s /\ length s = 2%nat /\
    DecodeToUint64 (match New (xff :: drop 1 std_alphabet) with
                    | Ok e => e
                    | Panic => zero_Encoding
                    end) s = Ok (v, None) /\ v <> 0.
Proof.
  apply (X24_EncodeUint64_zero_high_symbol (xff :: drop 1 std_alphabet)).
  - reflexivity.
  - apply (bool_decide_unpack _). vm_compute. exact I.
  - reflexivity.
  - vm_compute. discriminate.
Defined.
